(** * Lazy loading of CUDA driver entry points (c10/cuda/driver_api.{h,cpp})

    A shallow embedding of the lazy driver-API loader.  The process-wide
    variables of the translation unit ([driver_api_mutex], [loaded_apis],
    [cached_driver_version]), the function-local statics of the generated
    loaders and the public function pointers are the fields of one [State];
    the functions of the file are state transformers with three outcomes:
    normal return, a thrown [c10::Error], or a thread that blocks for ever on
    the mutex.  The generic [DriverAPILoader] template of the file is not
    modelled: nothing instantiates it, and the declaration of [func_ptr]
    in its initialiser, which qualifies the template parameter
    [ReturnType] with the global scope, is one no instantiation could
    compile.

    Concurrency is modelled by serialisation.  Every access to [loaded_apis]
    sits inside a [std::lock_guard] on the one mutex, and the initialiser of a
    function-local static runs at most once at a time (other threads wait for
    it), so for slot calls, probes and initialisations an execution by
    several threads is a sequence of the operations below in some order.
    [getDriverVersion] takes no lock: a sequence runs each of its calls as
    one step, which is exact for a single call and leaves alone what such
    a call never touches ([loaded_apis], the slots, the mutex, the
    Resolver), but says nothing of two calls that overlap.  No theorem
    about the memoized version ranges over sequences that contain
    [getDriverVersion]. *)

From Stdlib Require Import ZArith Lia.
From stdpp Require Import gmap strings list.

Local Open Scope Z_scope.

(** ** Data *)

(** [void*] and function pointers are addresses; [nullptr] is address 0. *)
Abbreviation ptr := N.
Definition nullptr : ptr := 0%N.

(** [cudaError_t] and [CUresult] are C enumerations; both name 0 as success. *)
Definition cudaSuccess : Z := 0.
Definition CUDA_SUCCESS : Z := 0.

(** What a call through a resolved entry point gives back: the [CUresult]
    and, for [cuGetErrorString], the [const char*] stored through the out
    parameter ([None] when it is left null). *)
Record NativeResult := {
  status : Z;
  out_string : option string
}.

(** The driver runtime, an external collaborator with a state [R] of its own.
    A lookup returns the [cudaError_t] and the content of [*funcPtr] after the
    call.  [CUDA_VERSION] is the compile-time constant of cuda.h;
    [cuda_error_what] is the text of the [c10::Error] that [C10_CUDA_CHECK]
    (c10/cuda/CUDAException.h) throws for a status. *)
Class Driver (R : Type) := {
  CUDA_VERSION : N;
  cudaGetDriverEntryPointByVersion : string -> N -> R -> (Z * ptr) * R;
  cudaGetDriverEntryPoint : string -> R -> (Z * ptr) * R;
  cudaDriverGetVersion : R -> (Z * Z) * R;
  invoke_native : ptr -> list Z -> R -> NativeResult * R;
  cuda_error_what : Z -> string
}.

(** The value of a public pointer [at::cuda::driver::funcName]: the
    instantiated [funcName##Loader<...>::lazilyLoadAndInvoke], which has the
    name and version of its macro invocation built in, or a native address. *)
Inductive FnPtr :=
| LazilyLoadAndInvoke (funcName : string) (version : N)
| Native (p : ptr).

(** What the code does to shared state and to its collaborators, in order. *)
Inductive Event :=
| EvLock
| EvUnlock
| EvResolve (symbol : string) (version : N)
| EvStoreApi (name : string) (p : ptr)
| EvQueryVersion
| EvStoreVersion (v : Z)
| EvWarn (msg : string)
| EvInvoke (p : ptr) (args : list Z).

Inductive Exn := c10_Error (what : string).

Section Model.

Context {R : Type} `{Driver R}.

Record State := {
  driver_api_mutex : bool;
  loaded_apis : gmap string N;
  cached_driver_version : Z;
  (** [static auto* entry_point] of each loader; absent while its
      initialiser has not completed *)
  static_entry_point : gmap string N;
  (** the pointers defined by [DEFINE_DRIVER_API_WRAPPER] *)
  slot : gmap string FnPtr;
  runtime : R;
  history : list Event
}.

Definition set_mutex (b : bool) (st : State) : State :=
  {| driver_api_mutex := b; loaded_apis := loaded_apis st;
     cached_driver_version := cached_driver_version st;
     static_entry_point := static_entry_point st; slot := slot st;
     runtime := runtime st; history := history st |}.

Definition set_loaded_apis (m : gmap string N) (st : State) : State :=
  {| driver_api_mutex := driver_api_mutex st; loaded_apis := m;
     cached_driver_version := cached_driver_version st;
     static_entry_point := static_entry_point st; slot := slot st;
     runtime := runtime st; history := history st |}.

Definition set_cached_driver_version (v : Z) (st : State) : State :=
  {| driver_api_mutex := driver_api_mutex st; loaded_apis := loaded_apis st;
     cached_driver_version := v;
     static_entry_point := static_entry_point st; slot := slot st;
     runtime := runtime st; history := history st |}.

Definition set_static_entry_point (m : gmap string N) (st : State) : State :=
  {| driver_api_mutex := driver_api_mutex st; loaded_apis := loaded_apis st;
     cached_driver_version := cached_driver_version st;
     static_entry_point := m; slot := slot st;
     runtime := runtime st; history := history st |}.

Definition set_runtime (r : R) (st : State) : State :=
  {| driver_api_mutex := driver_api_mutex st; loaded_apis := loaded_apis st;
     cached_driver_version := cached_driver_version st;
     static_entry_point := static_entry_point st; slot := slot st;
     runtime := r; history := history st |}.

Definition record_event (e : Event) (st : State) : State :=
  {| driver_api_mutex := driver_api_mutex st; loaded_apis := loaded_apis st;
     cached_driver_version := cached_driver_version st;
     static_entry_point := static_entry_point st; slot := slot st;
     runtime := runtime st; history := history st ++ [e] |}.

(** ** Control: return, throw, block *)

Inductive Outcome (A : Type) :=
| Normal (a : A) (st : State)
| Thrown (e : Exn) (st : State)
| Blocked (st : State).
Arguments Normal {A} a st.
Arguments Thrown {A} e st.
Arguments Blocked {A} st.

Definition M (A : Type) := State -> Outcome A.

Definition ret {A} (a : A) : M A := fun st => Normal a st.

Definition bind {A B} (m : M A) (k : A -> M B) : M B := fun st =>
  match m st with
  | Normal a st' => k a st'
  | Thrown e st' => Thrown e st'
  | Blocked st' => Blocked st'
  end.

Definition throw {A} (e : Exn) : M A := fun st => Thrown e st.

(** [try { body } catch (const c10::Error& e) { handler }]; every exception
    of the model is a [c10::Error], so [catch (...)] is the same. *)
Definition try_catch {A} (body : M A) (handler : Exn -> M A) : M A := fun st =>
  match body st with
  | Normal a st' => Normal a st'
  | Thrown e st' => handler e st'
  | Blocked st' => Blocked st'
  end.

Definition emit (e : Event) : M unit := fun st => Normal tt (record_event e st).

Definition state_of {A} (o : Outcome A) : State :=
  match o with
  | Normal _ st | Thrown _ st | Blocked st => st
  end.

End Model.

Arguments State R : clear implicits.
Arguments Outcome R A : clear implicits.
Arguments Normal {R A} a st.
Arguments Thrown {R A} e st.
Arguments Blocked {R A} st.
Arguments M R A : clear implicits.

Notation "'let*' x ':=' m 'in' k" := (bind m (fun x => k))
  (at level 10, x pattern, m at level 100, k at level 200).

(** ** The code *)

Section Code.

Context {R : Type} `{Driver R}.

Local Abbreviation M := (M R).

Definition TORCH_WARN (msg : string) : M unit := emit (EvWarn msg).

Definition TORCH_CHECK (cond : bool) (msg : string) : M unit :=
  if cond then ret tt else throw (c10_Error msg).

Definition C10_CUDA_CHECK (err : Z) : M unit :=
  if err =? cudaSuccess then ret tt else throw (c10_Error (cuda_error_what err)).

(** [std::lock_guard<std::mutex> lock(driver_api_mutex);] around the rest of
    its scope.  [std::mutex] is not recursive: a thread that asks for it
    while it is held waits, for ever if the holder is that thread itself or a
    thread that is itself blocked.  The destructor unlocks on return and on
    unwinding. *)
Definition acquire (st : State R) : State R :=
  record_event EvLock (set_mutex true st).

Definition release (st : State R) : State R :=
  record_event EvUnlock (set_mutex false st).

Definition lock_guard {A} (body : M A) : M A := fun st =>
  if driver_api_mutex st then Blocked st
  else
    match body (acquire st) with
    | Normal a st' => Normal a (release st')
    | Thrown e st' => Thrown e (release st')
    | Blocked st' => Blocked st'
    end.

(** The two entry-point lookups of the runtime, chosen by [#if]. *)
Definition lookup_entry_point (symbol : string) (version : N) (r : R)
  : (Z * ptr) * R :=
  if (12050 <=? CUDA_VERSION)%N
  then cudaGetDriverEntryPointByVersion symbol version r
  else cudaGetDriverEntryPoint symbol r.

Definition query_entry_point (symbol : string) (version : N) : M (Z * ptr) :=
  fun st =>
    let '(res, r') := lookup_entry_point symbol version (runtime st) in
    Normal res (record_event (EvResolve symbol version) (set_runtime r' st)).

(** [getDriverEntryPoint(symbol, version, entry_point)]; the result is the
    content of [*entry_point] on return. *)
Definition getDriverEntryPoint (symbol : string) (version : N) : M ptr :=
  try_catch
    (let* (err, p) := query_entry_point symbol version in
     let* _ := C10_CUDA_CHECK err in
     ret p)
    (fun e =>
       let '(c10_Error what) := e in
       let* _ := TORCH_WARN ("Failed to load CUDA driver API '" +:+ symbol
                             +:+ "': " +:+ what) in
       ret nullptr).

Definition store_api (name : string) (p : ptr) : M unit := fun st =>
  Normal tt (record_event (EvStoreApi name p)
               (set_loaded_apis (<[name := p]> (loaded_apis st)) st)).

(** The lambda that initialises [entry_point] in
    [funcName##Loader::lazilyLoadAndInvoke]. *)
Definition load_entry_point (funcName : string) (version : N) : M ptr :=
  lock_guard (fun st =>
    match loaded_apis st !! funcName with
    | Some p => ret p st
    | None =>
        (let* func_ptr := getDriverEntryPoint funcName version in
         let* _ := (if negb (func_ptr =? nullptr)%N
                    then store_api funcName func_ptr
                    else ret tt) in
         ret func_ptr) st
    end).

(** A function-local static with a dynamic initialiser: the initialiser
    runs on the first pass through the declaration and the variable is
    initialised when it returns; an initialiser that throws or never returns
    leaves it uninitialised. *)
Definition static_local (funcName : string) (init : M ptr) : M ptr := fun st =>
  match static_entry_point st !! funcName with
  | Some p => Normal p st
  | None =>
      match init st with
      | Normal p st' =>
          Normal p (set_static_entry_point
                      (<[funcName := p]> (static_entry_point st')) st')
      | Thrown e st' => Thrown e st'
      | Blocked st' => Blocked st'
      end
  end.

Definition call_native (p : ptr) (args : list Z) : M NativeResult := fun st =>
  let '(res, r') := invoke_native p args (runtime st) in
  Normal res (record_event (EvInvoke p args) (set_runtime r' st)).

Definition unavailable_message (funcName : string) : string :=
  "CUDA driver API '" +:+ funcName +:+ "' is not available. "
  +:+ "This may indicate an incompatible CUDA driver version.".

Definition lazilyLoadAndInvoke (funcName : string) (version : N)
    (args : list Z) : M NativeResult :=
  let* entry_point := static_local funcName (load_entry_point funcName version) in
  let* _ := TORCH_CHECK (negb (entry_point =? nullptr)%N)
              (unavailable_message funcName) in
  call_native entry_point args.

(** [ALL_DRIVER_API_WRAPPER]: the symbols and their minimum versions. *)
Definition ALL_DRIVER_API_WRAPPER_CUDA : list (string * N) :=
  [ ("cuDeviceGetAttribute", 11000); ("cuDeviceGetName", 11000);
    ("cuDriverGetVersion", 11000); ("cuFuncGetAttribute", 11000);
    ("cuFuncSetAttribute", 11000); ("cuGetErrorName", 11000);
    ("cuGetErrorString", 11000); ("cuInit", 11000);
    ("cuLaunchCooperativeKernel", 11000); ("cuLaunchKernel", 11000);
    ("cuModuleGetFunction", 11000); ("cuModuleLoadDataEx", 11000);
    ("cuModuleUnload", 11000); ("cuMemGetAddressRange", 11000);
    ("cuMemAlloc", 11000); ("cuMemFree", 11000);
    ("cuMemcpyDtoH", 11000); ("cuMemcpyHtoD", 11000);
    ("cuMemcpyDtoD", 11000);
    ("cuOccupancyMaxActiveBlocksPerMultiprocessor", 11000);
    ("cuStreamCreate", 11000); ("cuStreamDestroy", 11000);
    ("cuStreamSynchronize", 11000); ("cuCtxGetCurrent", 11000);
    ("cuCtxSetCurrent", 11000) ]%N.

(** Below 11000 the header stops the build with [#error]: no slot exists. *)
Definition ALL_DRIVER_API_WRAPPER : list (string * N) :=
  if (12000 <=? CUDA_VERSION)%N then
    ALL_DRIVER_API_WRAPPER_CUDA ++
    [ ("cuStreamWaitValue32", 12000); ("cuStreamWriteValue32", 12000);
      ("cuTensorMapEncodeTiled", 12000);
      ("cuTensorMapReplaceAddress", 12000) ]%N
  else if (11000 <=? CUDA_VERSION)%N then
    ALL_DRIVER_API_WRAPPER_CUDA ++
    [ ("cuStreamWaitValue32", 11000); ("cuStreamWriteValue32", 11000) ]%N
  else [].

(** [decltype(::funcName)* funcName = ...::lazilyLoadAndInvoke] for every
    entry of the list: the public pointers after static initialisation. *)
Definition DEFINE_DRIVER_API_WRAPPER (entry : string * N) : string * FnPtr :=
  (entry.1, LazilyLoadAndInvoke entry.1 entry.2).

Definition static_slots : gmap string FnPtr :=
  list_to_map (DEFINE_DRIVER_API_WRAPPER <$> ALL_DRIVER_API_WRAPPER).

Definition initial_state (r : R) : State R :=
  {| driver_api_mutex := false; loaded_apis := ∅;
     cached_driver_version := -1; static_entry_point := ∅;
     slot := static_slots; runtime := r; history := [] |}.

Definition call_ptr (f : FnPtr) (args : list Z) : M NativeResult :=
  match f with
  | LazilyLoadAndInvoke funcName version =>
      lazilyLoadAndInvoke funcName version args
  | Native p => call_native p args
  end.

(** A call [funcName(args...)] written inside [at::cuda::driver]: name lookup
    finds the pointer variable of that namespace.  A name with no slot is a
    program that does not compile; the model gives it an error. *)
Definition call (funcName : string) (args : list Z) : M NativeResult := fun st =>
  match slot st !! funcName with
  | Some f => call_ptr f args st
  | None => Thrown (c10_Error ("no slot named " +:+ funcName)) st
  end.

Definition initializeDriverAPI : M unit :=
  lock_guard
    (try_catch
       (let* result := call "cuInit" [0] in
        if negb (status result =? CUDA_SUCCESS) then
          let* err := call "cuGetErrorString" [status result] in
          TORCH_WARN ("Failed to initialize CUDA driver: " +:+
                      match out_string err with
                      | Some error_string => error_string
                      | None => "Unknown error"
                      end)
        else ret tt)
       (fun _ => TORCH_WARN "Exception during CUDA driver initialization")).

Definition isDriverAPIAvailable (funcName : string) (minVersion : N) : M bool :=
  lock_guard (fun st =>
    match loaded_apis st !! funcName with
    | Some p => ret (negb (p =? nullptr)%N) st
    | None =>
        (let* entry_point := getDriverEntryPoint funcName minVersion in
         let* _ := store_api funcName entry_point in
         ret (negb (entry_point =? nullptr)%N)) st
    end).

Definition query_driver_version : M (Z * Z) := fun st =>
  let '(res, r') := cudaDriverGetVersion (runtime st) in
  Normal res (record_event EvQueryVersion (set_runtime r' st)).

Definition store_version (v : Z) : M unit := fun st =>
  Normal tt (record_event (EvStoreVersion v) (set_cached_driver_version v st)).

Definition getDriverVersion : M Z := fun st =>
  if 0 <=? cached_driver_version st then ret (cached_driver_version st) st
  else
    try_catch
      (let* (err, version) := query_driver_version in
       let* _ := C10_CUDA_CHECK err in
       let* _ := store_version version in
       ret version)
      (fun e =>
         let '(c10_Error what) := e in
         let* _ := TORCH_WARN ("Failed to get CUDA driver version: " +:+ what) in
         ret (-1)) st.

(** ** Executions *)

(** What a thread can ask of this layer. *)
Inductive Op :=
| CallSlot (funcName : string) (args : list Z)
| IsDriverAPIAvailable (funcName : string) (minVersion : N)
| InitializeDriverAPI
| GetDriverVersion.

Definition step (op : Op) (st : State R) : State R :=
  match op with
  | CallSlot funcName args => state_of (call funcName args st)
  | IsDriverAPIAvailable funcName minVersion =>
      state_of (isDriverAPIAvailable funcName minVersion st)
  | InitializeDriverAPI => state_of (initializeDriverAPI st)
  | GetDriverVersion => state_of (getDriverVersion st)
  end.

Definition run (ops : list Op) (st : State R) : State R :=
  fold_left (fun s op => step op s) ops st.

End Code.


(** ** Observations on a history *)

Definition is_resolve (S : string) (e : Event) : bool :=
  match e with
  | EvResolve symbol _ => bool_decide (symbol = S)
  | _ => false
  end.

Definition is_version_query (e : Event) : bool :=
  match e with
  | EvQueryVersion => true
  | _ => false
  end.

Definition is_warning (e : Event) : bool :=
  match e with
  | EvWarn _ => true
  | _ => false
  end.

Fixpoint count_events (f : Event -> bool) (h : list Event) : nat :=
  match h with
  | [] => O
  | e :: h' => ((if f e then 1 else 0) + count_events f h')%nat
  end.

(** How often the Resolver was asked for [S]. *)
Definition resolver_calls (S : string) (h : list Event) : nat :=
  count_events (is_resolve S) h.

Definition version_queries (h : list Event) : nat :=
  count_events is_version_query h.

Definition warnings (h : list Event) : nat :=
  count_events is_warning h.

(** Is every write to [loaded_apis] and to [cached_driver_version] made
    between a lock and the next unlock?  [held] is the mutex at the start. *)
Fixpoint writes_under_lock (held : bool) (h : list Event) : bool :=
  match h with
  | [] => true
  | EvLock :: h' => writes_under_lock true h'
  | EvUnlock :: h' => writes_under_lock false h'
  | EvStoreApi _ _ :: h' | EvStoreVersion _ :: h' =>
      held && writes_under_lock held h'
  | _ :: h' => writes_under_lock held h'
  end.

(** The same for the writes to [loaded_apis] alone. *)
Fixpoint table_writes_under_lock (held : bool) (h : list Event) : bool :=
  match h with
  | [] => true
  | EvLock :: h' => table_writes_under_lock true h'
  | EvUnlock :: h' => table_writes_under_lock false h'
  | EvStoreApi _ _ :: h' => held && table_writes_under_lock held h'
  | _ :: h' => table_writes_under_lock held h'
  end.

(** The mutex after a history that started with it in state [held]. *)
Definition mutex_after (held : bool) (h : list Event) : bool :=
  fold_left (fun b e => match e with
                        | EvLock => true
                        | EvUnlock => false
                        | _ => b
                        end) h held.

(** ** What the runtime would answer

    Pure readings of the runtime, used to state what the code returns. *)

Section Reading.

Context {R : Type} `{Driver R}.

(** The content of [*entry_point] when [getDriverEntryPoint] returns. *)
Definition resolved (symbol : string) (version : N) (r : R) : ptr :=
  let '((err, p), _) := lookup_entry_point symbol version r in
  if err =? cudaSuccess then p else nullptr.

Definition load_warning (symbol : string) (err : Z) : string :=
  "Failed to load CUDA driver API '" +:+ symbol +:+ "': "
  +:+ cuda_error_what err.

Definition resolve_warning (symbol : string) (version : N) (r : R)
  : list Event :=
  let '((err, _), _) := lookup_entry_point symbol version r in
  if err =? cudaSuccess then [] else [EvWarn (load_warning symbol err)].

(** The state the lambda body of a loader starts from, and ends in. *)
Definition stored (name : string) (p : ptr) (st : State R) : State R :=
  record_event (EvStoreApi name p)
    (set_loaded_apis (<[name := p]> (loaded_apis st)) st).

Definition adopted (funcName : string) (p : ptr) (st : State R) : State R :=
  set_static_entry_point (<[funcName := p]> (static_entry_point st)) st.

(** After the static is read, the rest of [lazilyLoadAndInvoke]. *)
Definition check_and_invoke (funcName : string) (args : list Z) (p : N)
  : M R NativeResult :=
  let* _ := TORCH_CHECK (negb (p =? nullptr)%N) (unavailable_message funcName) in
  call_native p args.

(** Nothing of the shared tables moved and the Resolver was not asked. *)
Definition quiet (st st' : State R) : Prop :=
  slot st' = slot st /\
  loaded_apis st' = loaded_apis st /\
  static_entry_point st' = static_entry_point st /\
  forall S, resolver_calls S (history st') = resolver_calls S (history st).

(** How one operation can move what is known about a symbol [S]: not at
    all, the slot adopts the cached pointer, the slot resolves (and stores a
    pointer that is not null), or a probe resolves (and stores the outcome). *)
Definition advance (S : string) (st st' : State R) : Prop :=
  let t := loaded_apis st !! S in
  let s := static_entry_point st !! S in
  let c := resolver_calls S (history st) in
  let t' := loaded_apis st' !! S in
  let s' := static_entry_point st' !! S in
  let c' := resolver_calls S (history st') in
  slot st' = slot st /\
  ((t' = t /\ s' = s /\ c' = c) \/
  (s = None /\ is_Some t /\ t' = t /\ s' = t /\ c' = c) \/
  (s = None /\ t = None /\ c' = Datatypes.S c /\
   exists p, s' = Some p /\ t' = if (p =? nullptr)%N then None else Some p) \/
  (t = None /\ s' = s /\ c' = Datatypes.S c /\ is_Some t')).

(** The events between two states keep the lock discipline of
    [loaded_apis]: every store into it has the mutex held, and the mutex of
    the later state is what the locks and unlocks in between make it. *)
Definition disciplined (st st' : State R) : Prop :=
  exists l,
    history st' = history st ++ l /\
    table_writes_under_lock (driver_api_mutex st) l = true /\
    mutex_after (driver_api_mutex st) l = driver_api_mutex st'.

(** The count of Resolver calls for [S] against what the tables hold. *)
Definition calls_inv (S : string) (st : State R) : Prop :=
  let c := resolver_calls S (history st) in
  (c <= 2)%nat /\
  (static_entry_point st !! S <> Some nullptr -> (c <= 1)%nat) /\
  (loaded_apis st !! S = None -> (c <= 1)%nat) /\
  (loaded_apis st !! S = None -> static_entry_point st !! S = None -> c = O) /\
  (loaded_apis st !! S = None ->
   static_entry_point st !! S = None \/
   static_entry_point st !! S = Some nullptr).

End Reading.

(** ** Relations for the driver version and the symbols of the header *)

Section Reading_version.

Context {R : Type} `{Driver R}.

(** The memoized version did not move and the runtime was not asked for it. *)
Definition version_untouched (st st' : State R) : Prop :=
  cached_driver_version st' = cached_driver_version st /\
  version_queries (history st') = version_queries (history st).

(** A slot that has adopted a pointer other than null has the pointer that
    [loaded_apis] holds for its name. *)
Definition slots_agree (st : State R) : Prop :=
  forall S q,
    static_entry_point st !! S = Some q -> q <> nullptr ->
    loaded_apis st !! S = Some q.

End Reading_version.


(** ** A stub runtime

    The runtime of the specification's end-to-end scenario: every symbol
    resolves except [cuStreamCreate]; the first version query fails and the
    later ones report 12040.  Its state counts the version queries. *)
Module Stub.

Definition address (symbol : string) : N :=
  (4096 + N.of_nat (String.length symbol))%N.

Definition cudaErrorSymbolNotFound : Z := 500.
Definition cudaErrorInsufficientDriver : Z := 35.

Definition lookup (symbol : string) (r : nat) : (Z * N) * nat :=
  if bool_decide (symbol = "cuStreamCreate")
  then ((cudaErrorSymbolNotFound, 0%N), r)
  else ((cudaSuccess, address symbol), r).

Definition driver_version (r : nat) : (Z * Z) * nat :=
  match r with
  | O => ((cudaErrorInsufficientDriver, 0), S r)
  | S _ => ((cudaSuccess, 12040), S r)
  end.

Definition native (p : N) (args : list Z) (r : nat) : NativeResult * nat :=
  ({| status := CUDA_SUCCESS; out_string := None |}, r).

#[export] Instance driver : Driver nat := {|
  CUDA_VERSION := 12040%N;
  cudaGetDriverEntryPointByVersion := fun symbol _ => lookup symbol;
  cudaGetDriverEntryPoint := lookup;
  cudaDriverGetVersion := driver_version;
  invoke_native := native;
  cuda_error_what := fun _ => "CUDA error: driver reported a failure"
|}.

(** The process as it starts on the stub runtime. *)
Definition start : State nat := initial_state 0%nat.

(** A runtime whose [cuInit] reports an error, for the path of
    [initializeDriverAPI] that asks for the error string. *)
Definition CUDA_ERROR_NO_DEVICE : Z := 100.

Definition failing_native (p : N) (args : list Z) (r : nat)
  : NativeResult * nat :=
  ({| status := CUDA_ERROR_NO_DEVICE; out_string := None |}, r).

Definition failing_init_driver : Driver nat := {|
  CUDA_VERSION := 12040%N;
  cudaGetDriverEntryPointByVersion := fun symbol _ => lookup symbol;
  cudaGetDriverEntryPoint := lookup;
  cudaDriverGetVersion := driver_version;
  invoke_native := failing_native;
  cuda_error_what := fun _ => "CUDA error: driver reported a failure"
|}.

(** A runtime that reports success with a negative version. *)
Definition negative_version (r : nat) : (Z * Z) * nat :=
  ((cudaSuccess, -7), S r).

Definition negative_version_driver : Driver nat := {|
  CUDA_VERSION := 12040%N;
  cudaGetDriverEntryPointByVersion := fun symbol _ => lookup symbol;
  cudaGetDriverEntryPoint := lookup;
  cudaDriverGetVersion := negative_version;
  invoke_native := native;
  cuda_error_what := fun _ => "CUDA error: driver reported a failure"
|}.

(** A runtime that has no [cuInit]. *)
Definition lookup_no_cuInit (symbol : string) (r : nat) : (Z * N) * nat :=
  if bool_decide (symbol = "cuInit")
  then ((cudaErrorSymbolNotFound, 0%N), r)
  else ((cudaSuccess, address symbol), r).

Definition no_cuInit_driver : Driver nat := {|
  CUDA_VERSION := 12040%N;
  cudaGetDriverEntryPointByVersion := fun symbol _ => lookup_no_cuInit symbol;
  cudaGetDriverEntryPoint := lookup_no_cuInit;
  cudaDriverGetVersion := driver_version;
  invoke_native := native;
  cuda_error_what := fun _ => "CUDA error: driver reported a failure"
|}.

(** A runtime that reports success for a symbol it does not have and
    leaves the entry point null. *)
Definition lookup_silent (symbol : string) (r : nat) : (Z * N) * nat :=
  if bool_decide (symbol = "cuStreamCreate")
  then ((cudaSuccess, 0%N), r)
  else ((cudaSuccess, address symbol), r).

Definition silent_driver : Driver nat := {|
  CUDA_VERSION := 12040%N;
  cudaGetDriverEntryPointByVersion := fun symbol _ => lookup_silent symbol;
  cudaGetDriverEntryPoint := lookup_silent;
  cudaDriverGetVersion := driver_version;
  invoke_native := native;
  cuda_error_what := fun _ => "CUDA error: driver reported a failure"
|}.

End Stub.

(** * Properties *)

Section Properties.

Context {R : Type} `{Driver R}.

Implicit Types (st : State R) (h : list Event) (S symbol funcName : string).

(** ** Histories *)

Lemma count_events_app f h h' :
  count_events f (h ++ h') = (count_events f h + count_events f h')%nat.
Proof. induction h as [|e h IH]; simpl; [done | rewrite IH; lia]. Qed.

Lemma resolver_calls_warning S symbol version (r : R) :
  resolver_calls S (resolve_warning symbol version r) = O.
Proof.
  unfold resolve_warning.
  destruct (lookup_entry_point symbol version r) as [[err p] r'].
  destruct (err =? cudaSuccess); reflexivity.
Qed.

Lemma count_resolve_warning S symbol version (r : R) :
  count_events (is_resolve S) (resolve_warning symbol version r) = O.
Proof. apply resolver_calls_warning. Qed.

(** ** The Resolver *)

Lemma getDriverEntryPoint_normal symbol version st :
  getDriverEntryPoint symbol version st =
  Normal (resolved symbol version (runtime st))
         (state_of (getDriverEntryPoint symbol version st)).
Proof.
  unfold getDriverEntryPoint, try_catch, bind, query_entry_point, resolved,
    C10_CUDA_CHECK.
  destruct (lookup_entry_point symbol version (runtime st)) as [[err p] r'].
  destruct (err =? cudaSuccess); reflexivity.
Qed.

Lemma getDriverEntryPoint_history symbol version st :
  history (state_of (getDriverEntryPoint symbol version st)) =
  history st ++ EvResolve symbol version
             :: resolve_warning symbol version (runtime st).
Proof.
  unfold getDriverEntryPoint, try_catch, bind, query_entry_point,
    resolve_warning, C10_CUDA_CHECK.
  destruct (lookup_entry_point symbol version (runtime st)) as [[err p] r'].
  destruct (err =? cudaSuccess); simpl; [done |].
  by rewrite <- app_assoc.
Qed.

Lemma getDriverEntryPoint_frame symbol version st :
  let st' := state_of (getDriverEntryPoint symbol version st) in
  driver_api_mutex st' = driver_api_mutex st /\
  loaded_apis st' = loaded_apis st /\
  cached_driver_version st' = cached_driver_version st /\
  static_entry_point st' = static_entry_point st /\
  slot st' = slot st /\
  runtime st' = (lookup_entry_point symbol version (runtime st)).2.
Proof.
  unfold getDriverEntryPoint, try_catch, bind, query_entry_point,
    C10_CUDA_CHECK.
  destruct (lookup_entry_point symbol version (runtime st)) as [[err p] r'].
  destruct (err =? cudaSuccess); simpl; done.
Qed.

Lemma resolved_failure symbol version (r : R) err p r' :
  lookup_entry_point symbol version r = ((err, p), r') ->
  err <> cudaSuccess ->
  resolved symbol version r = nullptr /\
  resolve_warning symbol version r = [EvWarn (load_warning symbol err)].
Proof.
  intros Hl Herr. unfold resolved, resolve_warning. rewrite Hl.
  destruct (Z.eqb_spec err cudaSuccess); done.
Qed.

(** Bring the count of a history built by the code to a sum. *)
Ltac count_calls :=
  unfold resolver_calls in *; simpl;
  rewrite ?getDriverEntryPoint_history; simpl;
  rewrite ?count_events_app; simpl;
  rewrite ?count_resolve_warning.

(** ** The lock, the probe and the loader, case by case *)

Lemma lock_guard_blocked {A} (body : M R A) st :
  driver_api_mutex st = true -> lock_guard body st = Blocked st.
Proof. intros Hm. unfold lock_guard. by rewrite Hm. Qed.

Lemma isDriverAPIAvailable_cached funcName minVersion st p :
  driver_api_mutex st = false ->
  loaded_apis st !! funcName = Some p ->
  isDriverAPIAvailable funcName minVersion st =
  Normal (negb (p =? nullptr)%N) (release (acquire st)).
Proof.
  intros Hm Ht. unfold isDriverAPIAvailable, lock_guard. rewrite Hm.
  simpl. by rewrite Ht.
Qed.

Lemma isDriverAPIAvailable_resolves funcName minVersion st :
  driver_api_mutex st = false ->
  loaded_apis st !! funcName = None ->
  isDriverAPIAvailable funcName minVersion st =
  Normal (negb (resolved funcName minVersion (runtime st) =? nullptr)%N)
    (release (stored funcName (resolved funcName minVersion (runtime st))
       (state_of (getDriverEntryPoint funcName minVersion (acquire st))))).
Proof.
  intros Hm Ht. unfold isDriverAPIAvailable, lock_guard. rewrite Hm.
  simpl. rewrite Ht. unfold bind.
  rewrite getDriverEntryPoint_normal. reflexivity.
Qed.

Lemma load_entry_point_cached funcName version st p :
  driver_api_mutex st = false ->
  loaded_apis st !! funcName = Some p ->
  load_entry_point funcName version st = Normal p (release (acquire st)).
Proof.
  intros Hm Ht. unfold load_entry_point, lock_guard. rewrite Hm.
  simpl. by rewrite Ht.
Qed.

Lemma load_entry_point_resolves funcName version st :
  driver_api_mutex st = false ->
  loaded_apis st !! funcName = None ->
  load_entry_point funcName version st =
  let p := resolved funcName version (runtime st) in
  let st1 := state_of (getDriverEntryPoint funcName version (acquire st)) in
  Normal p (release (if (p =? nullptr)%N then st1 else stored funcName p st1)).
Proof.
  intros Hm Ht. unfold load_entry_point, lock_guard. rewrite Hm.
  simpl. rewrite Ht. unfold bind.
  rewrite getDriverEntryPoint_normal. simpl.
  destruct (resolved funcName version (runtime st) =? nullptr)%N; reflexivity.
Qed.

Lemma static_local_initialised funcName (init : M R N) st p :
  static_entry_point st !! funcName = Some p ->
  static_local funcName init st = Normal p st.
Proof. intros Hs. unfold static_local. by rewrite Hs. Qed.

Lemma static_local_blocked funcName version st :
  static_entry_point st !! funcName = None ->
  driver_api_mutex st = true ->
  static_local funcName (load_entry_point funcName version) st = Blocked st.
Proof.
  intros Hs Hm. unfold static_local. rewrite Hs.
  unfold load_entry_point. by rewrite lock_guard_blocked.
Qed.

Lemma static_local_cached funcName version st p :
  static_entry_point st !! funcName = None ->
  driver_api_mutex st = false ->
  loaded_apis st !! funcName = Some p ->
  static_local funcName (load_entry_point funcName version) st =
  Normal p (adopted funcName p (release (acquire st))).
Proof.
  intros Hs Hm Ht. unfold static_local. rewrite Hs.
  by rewrite (load_entry_point_cached _ _ _ p).
Qed.

Lemma static_local_resolves funcName version st :
  static_entry_point st !! funcName = None ->
  driver_api_mutex st = false ->
  loaded_apis st !! funcName = None ->
  static_local funcName (load_entry_point funcName version) st =
  let p := resolved funcName version (runtime st) in
  let st1 := state_of (getDriverEntryPoint funcName version (acquire st)) in
  Normal p (adopted funcName p
              (release (if (p =? nullptr)%N then st1 else stored funcName p st1))).
Proof.
  intros Hs Hm Ht. unfold static_local. rewrite Hs.
  by rewrite load_entry_point_resolves.
Qed.

Lemma lazilyLoadAndInvoke_unfold funcName version args st :
  lazilyLoadAndInvoke funcName version args st =
  match static_local funcName (load_entry_point funcName version) st with
  | Normal p st' => check_and_invoke funcName args p st'
  | Thrown e st' => Thrown e st'
  | Blocked st' => Blocked st'
  end.
Proof. reflexivity. Qed.

Lemma check_and_invoke_null funcName args st :
  check_and_invoke funcName args nullptr st =
  Thrown (c10_Error (unavailable_message funcName)) st.
Proof. reflexivity. Qed.

Lemma check_and_invoke_quiet funcName args p st :
  quiet st (state_of (check_and_invoke funcName args p st)).
Proof.
  unfold check_and_invoke, bind, TORCH_CHECK, call_native.
  destruct (p =? nullptr)%N; simpl; [by repeat split |].
  destruct (invoke_native p args (runtime st)) as [res r']. simpl.
  repeat split. intros S. count_calls. lia.
Qed.

(** ** No operation moves more than [advance] allows *)

Lemma quiet_refl st : quiet st st.
Proof. by repeat split. Qed.

Lemma quiet_trans st1 st2 st3 : quiet st1 st2 -> quiet st2 st3 -> quiet st1 st3.
Proof.
  intros (Hp & Ht & Hs & Hc) (Hp' & Ht' & Hs' & Hc').
  split; [congruence |]. split; [congruence |]. split; [congruence |].
  intros S. by rewrite Hc', Hc.
Qed.

Lemma quiet_acquire st : quiet st (acquire st).
Proof. repeat split. intros S. count_calls. lia. Qed.

Lemma quiet_release st : quiet st (release st).
Proof. repeat split. intros S. count_calls. lia. Qed.

Lemma quiet_warn msg st : quiet st (state_of (TORCH_WARN msg st)).
Proof. repeat split. intros S. count_calls. lia. Qed.

Lemma quiet_advance S st st' : quiet st st' -> advance S st st'.
Proof.
  intros (Hp & Ht & Hs & Hc). split; [done |]. left. by rewrite Ht, Hs, Hc.
Qed.

Lemma advance_quiet S st1 st2 st3 :
  advance S st1 st2 -> quiet st2 st3 -> advance S st1 st3.
Proof.
  intros Ha (Hp & Ht & Hs & Hc). unfold advance in *.
  by rewrite Hp, Ht, Hs, Hc.
Qed.

Lemma isDriverAPIAvailable_advance S funcName minVersion st :
  advance S st (state_of (isDriverAPIAvailable funcName minVersion st)).
Proof.
  destruct (driver_api_mutex st) eqn:Hm.
  { unfold isDriverAPIAvailable. rewrite lock_guard_blocked by done.
    apply quiet_advance, quiet_refl. }
  destruct (loaded_apis st !! funcName) as [p|] eqn:Ht.
  { rewrite (isDriverAPIAvailable_cached _ _ _ p) by done.
    apply quiet_advance.
    eapply quiet_trans; [apply quiet_acquire | apply quiet_release]. }
  rewrite isDriverAPIAvailable_resolves by done.
  pose proof (getDriverEntryPoint_frame funcName minVersion (acquire st))
    as (_ & Ht1 & _ & Hs1 & Hp1 & _).
  unfold advance. simpl. rewrite Ht1, Hs1. simpl.
  split; [done |].
  destruct (decide (funcName = S)) as [->|Hne].
  - right; right; right. rewrite lookup_insert_eq.
    split; [done |]. split; [done |]. split; [| by eexists].
    count_calls. rewrite bool_decide_eq_true_2 by done. lia.
  - left. rewrite lookup_insert_ne by done.
    split; [done |]. split; [done |].
    count_calls. rewrite bool_decide_eq_false_2 by done. lia.
Qed.

Lemma static_local_advance S funcName version st :
  advance S st
    (state_of (static_local funcName (load_entry_point funcName version) st)).
Proof.
  destruct (static_entry_point st !! funcName) as [q|] eqn:Hs.
  { rewrite (static_local_initialised _ _ _ q) by done.
    apply quiet_advance, quiet_refl. }
  destruct (driver_api_mutex st) eqn:Hm.
  { rewrite static_local_blocked by done. apply quiet_advance, quiet_refl. }
  destruct (loaded_apis st !! funcName) as [p|] eqn:Ht.
  { rewrite (static_local_cached _ _ _ p) by done.
    unfold advance. simpl. split; [done |].
    destruct (decide (funcName = S)) as [->|Hne].
    - right; left. rewrite lookup_insert_eq, Ht, Hs.
      split; [done |]. split; [by eexists |]. split; [done |].
      split; [done |]. count_calls. lia.
    - left. rewrite lookup_insert_ne by done.
      split; [done |]. split; [done |]. count_calls. lia. }
  rewrite static_local_resolves by done.
  pose proof (getDriverEntryPoint_frame funcName version (acquire st))
    as (_ & Ht1 & _ & Hs1 & Hp1 & _).
  cbv zeta. set (p := resolved funcName version (runtime st)).
  unfold advance.
  split; [by destruct (p =? nullptr)%N |].
  destruct (decide (funcName = S)) as [->|Hne].
  - right; right; left. rewrite Hs, Ht.
    split; [done |]. split; [done |].
    split.
    + destruct (p =? nullptr)%N; count_calls;
        rewrite bool_decide_eq_true_2 by done; lia.
    + exists p. simpl. split.
      * destruct (p =? nullptr)%N; simpl; rewrite ?Hs1; simpl;
          by rewrite lookup_insert_eq.
      * destruct (p =? nullptr)%N; simpl; rewrite ?Ht1; simpl;
          [done | by rewrite lookup_insert_eq].
  - left. simpl. split; [| split].
    + destruct (p =? nullptr)%N; simpl; rewrite ?Ht1; simpl;
        [done | by rewrite lookup_insert_ne].
    + destruct (p =? nullptr)%N; simpl; rewrite ?Hs1; simpl;
        by rewrite lookup_insert_ne.
    + destruct (p =? nullptr)%N; count_calls;
        rewrite bool_decide_eq_false_2 by done; lia.
Qed.

Lemma lazilyLoadAndInvoke_advance S funcName version args st :
  advance S st (state_of (lazilyLoadAndInvoke funcName version args st)).
Proof.
  rewrite lazilyLoadAndInvoke_unfold.
  pose proof (static_local_advance S funcName version st) as Ha.
  destruct (static_local funcName (load_entry_point funcName version) st)
    as [p st'|e st'|st']; simpl in Ha; [| done | done].
  eapply advance_quiet; [exact Ha | apply check_and_invoke_quiet].
Qed.

Lemma call_native_quiet p args st :
  quiet st (state_of (call_native p args st)).
Proof.
  unfold call_native.
  destruct (invoke_native p args (runtime st)) as [res r']. simpl.
  repeat split. intros S. count_calls. lia.
Qed.

Lemma call_advance S funcName args st :
  advance S st (state_of (call funcName args st)).
Proof.
  unfold call. destruct (slot st !! funcName) as [[n v|p]|]; simpl.
  - apply lazilyLoadAndInvoke_advance.
  - apply quiet_advance, call_native_quiet.
  - apply quiet_advance, quiet_refl.
Qed.

(** While the mutex is held a call through a slot cannot resolve: either
    the static is initialised already, or the initialiser waits. *)
Lemma call_locked funcName args st :
  driver_api_mutex st = true ->
  quiet st (state_of (call funcName args st)) /\
  driver_api_mutex (state_of (call funcName args st)) = true.
Proof.
  intros Hm. unfold call.
  destruct (slot st !! funcName) as [[n v|p]|]; simpl.
  - rewrite lazilyLoadAndInvoke_unfold.
    destruct (static_entry_point st !! n) as [q|] eqn:Hs.
    + rewrite (static_local_initialised _ _ _ q) by done.
      split; [apply check_and_invoke_quiet |].
      unfold check_and_invoke, bind, TORCH_CHECK, call_native.
      destruct (q =? nullptr)%N; simpl; [done |].
      by destruct (invoke_native q args (runtime st)).
    + rewrite static_local_blocked by done. split; [apply quiet_refl | done].
  - split; [apply call_native_quiet |].
    unfold call_native. by destruct (invoke_native p args (runtime st)).
  - split; [apply quiet_refl | done].
Qed.

Lemma initializeDriverAPI_quiet st :
  quiet st (state_of (initializeDriverAPI st)).
Proof.
  unfold initializeDriverAPI, lock_guard.
  destruct (driver_api_mutex st) eqn:Hm; [apply quiet_refl |].
  assert (driver_api_mutex (acquire st) = true) as Hm1 by done.
  pose proof (quiet_acquire st) as Q0.
  destruct (call_locked "cuInit" [0] (acquire st) Hm1) as [Q1 Hm2].
  unfold try_catch, bind.
  destruct (call "cuInit" [0] (acquire st)) as [result st1|e st1|st1];
    simpl in Q1, Hm2.
  - destruct (negb (status result =? CUDA_SUCCESS)).
    + destruct (call_locked "cuGetErrorString" [status result] st1 Hm2)
        as [Q2 Hm3].
      destruct (call "cuGetErrorString" [status result] st1)
        as [err st2|e st2|st2]; simpl in Q2, Hm3; simpl.
      * eapply quiet_trans; [| apply quiet_release].
        eapply quiet_trans; [| apply quiet_warn].
        eauto using quiet_trans.
      * eapply quiet_trans; [| apply quiet_release].
        eapply quiet_trans; [| apply quiet_warn].
        eauto using quiet_trans.
      * eauto using quiet_trans.
    + simpl. eapply quiet_trans; [| apply quiet_release].
      eauto using quiet_trans.
  - simpl. eapply quiet_trans; [| apply quiet_release].
    eapply quiet_trans; [| apply quiet_warn].
    eauto using quiet_trans.
  - simpl. eauto using quiet_trans.
Qed.

Lemma getDriverVersion_quiet st :
  quiet st (state_of (getDriverVersion st)).
Proof.
  unfold getDriverVersion.
  destruct (0 <=? cached_driver_version st); [apply quiet_refl |].
  unfold try_catch, bind, query_driver_version, C10_CUDA_CHECK.
  destruct (cudaDriverGetVersion (runtime st)) as [[err version] r'].
  destruct (err =? cudaSuccess); simpl;
    (split; [done |]; split; [done |]; split; [done |];
     intros S; count_calls; lia).
Qed.

Lemma step_advance S op st : advance S st (step op st).
Proof.
  destruct op as [funcName args|funcName minVersion| |]; simpl.
  - apply call_advance.
  - apply isDriverAPIAvailable_advance.
  - apply quiet_advance, initializeDriverAPI_quiet.
  - apply quiet_advance, getDriverVersion_quiet.
Qed.

Lemma run_cons op ops st : run (op :: ops) st = run ops (step op st).
Proof. reflexivity. Qed.

(** ** What [advance] keeps *)

Lemma advance_loaded_apis S st st' p :
  advance S st st' ->
  loaded_apis st !! S = Some p -> loaded_apis st' !! S = Some p.
Proof.
  unfold advance.
  intros [_ [(Ht & _)|[(_ & _ & Ht & _)|[(_ & Ht & _)|(Ht & _)]]]] Hp;
    congruence.
Qed.

Lemma advance_static S st st' p :
  advance S st st' ->
  static_entry_point st !! S = Some p -> static_entry_point st' !! S = Some p.
Proof.
  unfold advance.
  intros [_ [(_ & Hs & _)|[(Hs & _)|[(Hs & _)|(_ & Hs & _)]]]] Hp;
    congruence.
Qed.

Lemma advance_calls_inv S st st' :
  advance S st st' -> calls_inv S st -> calls_inv S st'.
Proof.
  unfold advance, calls_inv.
  intros Ha (I1 & I2 & I3 & I4 & I5).
  destruct Ha as [_ [(Ht & Hs & Hc)|[(Hs & [p Hp] & Ht & Hs' & Hc)
                   |[(Hs & Ht & Hc & p & Hs' & Ht')|(Ht & Hs & Hc & [p Hp])]]]].
  - rewrite Ht, Hs, Hc. done.
  - rewrite Ht, Hs', Hc, Hp.
    assert (resolver_calls S (history st) <= 1)%nat
      by (apply I2; rewrite Hs; done).
    split; [lia |]. split; [done |]. split; [done |]. split; done.
  - rewrite Hc, Hs', Ht'. rewrite (I4 Ht Hs).
    split; [lia |]. split; [intros _; lia |]. split; [intros _; lia |].
    split; [done |].
    destruct (N.eqb_spec p nullptr) as [->|Hp]; [by right | done].
  - rewrite Hc, Hs, Hp.
    assert (resolver_calls S (history st) <= 1)%nat by (apply I3; done).
    split; [lia |]. split; [| split; [done | split; done]].
    intros Hn. destruct (I5 Ht) as [Hnone|Hnull]; [| done].
    rewrite (I4 Ht Hnone). lia.
Qed.

(** ** Executions *)

Lemma run_loaded_apis ops st S p :
  loaded_apis st !! S = Some p -> loaded_apis (run ops st) !! S = Some p.
Proof.
  revert st. induction ops as [|op ops IH]; intros st Hp; [done |].
  rewrite run_cons. apply IH.
  eapply advance_loaded_apis; [apply step_advance | done].
Qed.

Lemma run_static_entry_point ops st S p :
  static_entry_point st !! S = Some p ->
  static_entry_point (run ops st) !! S = Some p.
Proof.
  revert st. induction ops as [|op ops IH]; intros st Hp; [done |].
  rewrite run_cons. apply IH.
  eapply advance_static; [apply step_advance | done].
Qed.

Lemma run_calls_inv ops st S : calls_inv S st -> calls_inv S (run ops st).
Proof.
  revert st. induction ops as [|op ops IH]; intros st Hi; [done |].
  rewrite run_cons. apply IH.
  eapply advance_calls_inv; [apply step_advance | done].
Qed.

Lemma run_slot ops st : slot (run ops st) = slot st.
Proof.
  revert st. induction ops as [|op ops IH]; intros st; [done |].
  rewrite run_cons, IH.
  destruct (step_advance EmptyString op st) as [Hp _]. exact Hp.
Qed.

Lemma initial_calls_inv (r : R) S : calls_inv S (initial_state r).
Proof.
  unfold calls_inv. simpl. unfold resolver_calls. simpl.
  repeat split; try lia; auto.
Qed.

Lemma static_slots_trampolines funcName f :
  static_slots !! funcName = Some f ->
  exists version,
    f = LazilyLoadAndInvoke funcName version /\
    In (funcName, version) ALL_DRIVER_API_WRAPPER.
Proof.
  unfold static_slots. intros Hf.
  apply elem_of_list_to_map_2 in Hf.
  apply list_elem_of_fmap in Hf as ([n v] & Heq & Hin).
  unfold DEFINE_DRIVER_API_WRAPPER in Heq. simpl in Heq.
  injection Heq as -> ->. exists v. split; [done |].
  by apply list_elem_of_In.
Qed.

(** ** The lock discipline of [loaded_apis] *)

Lemma mutex_after_app b h h' :
  mutex_after b (h ++ h') = mutex_after (mutex_after b h) h'.
Proof. unfold mutex_after. apply fold_left_app. Qed.

Lemma table_writes_under_lock_app b h h' :
  table_writes_under_lock b (h ++ h') =
  table_writes_under_lock b h &&
  table_writes_under_lock (mutex_after b h) h'.
Proof.
  revert b. induction h as [|e h IH]; intros b; [done |].
  destruct e; simpl; rewrite ?IH; try done.
  by rewrite andb_assoc.
Qed.

Lemma disciplined_refl st : disciplined st st.
Proof. exists []. by rewrite app_nil_r. Qed.

Lemma disciplined_trans st1 st2 st3 :
  disciplined st1 st2 -> disciplined st2 st3 -> disciplined st1 st3.
Proof.
  intros (l & Hh & Hw & Hm) (l' & Hh' & Hw' & Hm').
  exists (l ++ l'). split; [| split].
  - by rewrite Hh', Hh, app_assoc.
  - by rewrite table_writes_under_lock_app, Hw, Hm, Hw'.
  - by rewrite mutex_after_app, Hm, Hm'.
Qed.

Lemma disciplined_acquire st : disciplined st (acquire st).
Proof. by exists [EvLock]. Qed.

Lemma disciplined_release st : disciplined st (release st).
Proof. by exists [EvUnlock]. Qed.

Lemma disciplined_warn msg st : disciplined st (state_of (TORCH_WARN msg st)).
Proof. by exists [EvWarn msg]. Qed.

Lemma disciplined_stored name p st :
  driver_api_mutex st = true -> disciplined st (stored name p st).
Proof. intros Hm. exists [EvStoreApi name p]. simpl. by rewrite Hm. Qed.

Lemma disciplined_adopted funcName p st : disciplined st (adopted funcName p st).
Proof. exists []. by rewrite app_nil_r. Qed.

Lemma disciplined_getDriverEntryPoint symbol version st :
  disciplined st (state_of (getDriverEntryPoint symbol version st)).
Proof.
  pose proof (getDriverEntryPoint_frame symbol version st) as (Hm & _).
  exists (EvResolve symbol version :: resolve_warning symbol version (runtime st)).
  split; [apply getDriverEntryPoint_history |].
  rewrite Hm. unfold resolve_warning.
  destruct (lookup_entry_point symbol version (runtime st)) as [[err p] r'].
  by destruct (err =? cudaSuccess).
Qed.

Lemma disciplined_call_native p args st :
  disciplined st (state_of (call_native p args st)).
Proof.
  unfold call_native.
  destruct (invoke_native p args (runtime st)) as [res r'].
  by exists [EvInvoke p args].
Qed.

Lemma disciplined_check_and_invoke funcName args p st :
  disciplined st (state_of (check_and_invoke funcName args p st)).
Proof.
  unfold check_and_invoke, bind, TORCH_CHECK.
  destruct (p =? nullptr)%N; simpl;
    [apply disciplined_refl | apply disciplined_call_native].
Qed.

(** The critical section of both writers: lock, resolve, store, unlock. *)
Lemma disciplined_resolve_store funcName version p st :
  driver_api_mutex st = false ->
  disciplined st
    (release (stored funcName p
                (state_of (getDriverEntryPoint funcName version (acquire st))))).
Proof.
  intros Hm.
  pose proof (getDriverEntryPoint_frame funcName version (acquire st))
    as (Hm1 & _).
  eapply disciplined_trans; [| apply disciplined_release].
  eapply disciplined_trans; [| by apply disciplined_stored].
  eapply disciplined_trans;
    [apply disciplined_acquire | apply disciplined_getDriverEntryPoint].
Qed.

Lemma disciplined_isDriverAPIAvailable funcName minVersion st :
  disciplined st (state_of (isDriverAPIAvailable funcName minVersion st)).
Proof.
  destruct (driver_api_mutex st) eqn:Hm.
  { unfold isDriverAPIAvailable. rewrite lock_guard_blocked by done.
    apply disciplined_refl. }
  destruct (loaded_apis st !! funcName) as [p|] eqn:Ht.
  - rewrite (isDriverAPIAvailable_cached _ _ _ p) by done.
    eapply disciplined_trans;
      [apply disciplined_acquire | apply disciplined_release].
  - rewrite isDriverAPIAvailable_resolves by done.
    by apply disciplined_resolve_store.
Qed.

Lemma disciplined_static_local funcName version st :
  disciplined st
    (state_of (static_local funcName (load_entry_point funcName version) st)).
Proof.
  destruct (static_entry_point st !! funcName) as [q|] eqn:Hs.
  { rewrite (static_local_initialised _ _ _ q) by done.
    apply disciplined_refl. }
  destruct (driver_api_mutex st) eqn:Hm.
  { rewrite static_local_blocked by done. apply disciplined_refl. }
  destruct (loaded_apis st !! funcName) as [p|] eqn:Ht.
  - rewrite (static_local_cached _ _ _ p) by done.
    eapply disciplined_trans; [| apply disciplined_adopted].
    eapply disciplined_trans;
      [apply disciplined_acquire | apply disciplined_release].
  - rewrite static_local_resolves by done. cbv zeta.
    eapply disciplined_trans; [| apply disciplined_adopted].
    destruct (resolved funcName version (runtime st) =? nullptr)%N.
    + eapply disciplined_trans; [| apply disciplined_release].
      eapply disciplined_trans;
        [apply disciplined_acquire | apply disciplined_getDriverEntryPoint].
    + by apply disciplined_resolve_store.
Qed.

Lemma disciplined_call funcName args st :
  disciplined st (state_of (call funcName args st)).
Proof.
  unfold call. destruct (slot st !! funcName) as [[n v|p]|]; simpl.
  - rewrite lazilyLoadAndInvoke_unfold.
    pose proof (disciplined_static_local n v st) as Hd.
    destruct (static_local n (load_entry_point n v) st)
      as [q st'|e st'|st']; simpl in Hd; [| done | done].
    eapply disciplined_trans; [exact Hd | apply disciplined_check_and_invoke].
  - apply disciplined_call_native.
  - apply disciplined_refl.
Qed.

Lemma disciplined_initializeDriverAPI st :
  disciplined st (state_of (initializeDriverAPI st)).
Proof.
  unfold initializeDriverAPI, lock_guard.
  destruct (driver_api_mutex st) eqn:Hm; [apply disciplined_refl |].
  pose proof (disciplined_acquire st) as D0.
  pose proof (disciplined_call "cuInit" [0] (acquire st)) as D1.
  unfold try_catch, bind.
  destruct (call "cuInit" [0] (acquire st)) as [result st1|e st1|st1];
    simpl in D1.
  - destruct (negb (status result =? CUDA_SUCCESS)).
    + pose proof (disciplined_call "cuGetErrorString" [status result] st1)
        as D2.
      destruct (call "cuGetErrorString" [status result] st1)
        as [err st2|e st2|st2]; simpl in D2; simpl.
      * eapply disciplined_trans; [| apply disciplined_release].
        eapply disciplined_trans; [| apply disciplined_warn].
        eauto using disciplined_trans.
      * eapply disciplined_trans; [| apply disciplined_release].
        eapply disciplined_trans; [| apply disciplined_warn].
        eauto using disciplined_trans.
      * eauto using disciplined_trans.
    + simpl. eapply disciplined_trans; [| apply disciplined_release].
      eauto using disciplined_trans.
  - simpl. eapply disciplined_trans; [| apply disciplined_release].
    eapply disciplined_trans; [| apply disciplined_warn].
    eauto using disciplined_trans.
  - simpl. eauto using disciplined_trans.
Qed.

Lemma disciplined_getDriverVersion st :
  disciplined st (state_of (getDriverVersion st)).
Proof.
  unfold getDriverVersion.
  destruct (0 <=? cached_driver_version st); [apply disciplined_refl |].
  unfold try_catch, bind, query_driver_version, C10_CUDA_CHECK.
  destruct (cudaDriverGetVersion (runtime st)) as [[err version] r'].
  destruct (err =? cudaSuccess); simpl.
  - exists [EvQueryVersion; EvStoreVersion version]. simpl.
    by rewrite <- app_assoc.
  - eexists [EvQueryVersion; EvWarn _]. simpl. by rewrite <- app_assoc.
Qed.

Lemma disciplined_step op st : disciplined st (step op st).
Proof.
  destruct op as [funcName args|funcName minVersion| |]; simpl.
  - apply disciplined_call.
  - apply disciplined_isDriverAPIAvailable.
  - apply disciplined_initializeDriverAPI.
  - apply disciplined_getDriverVersion.
Qed.

Lemma disciplined_run ops st : disciplined st (run ops st).
Proof.
  revert st. induction ops as [|op ops IH]; intros st;
    [apply disciplined_refl |].
  rewrite run_cons.
  eapply disciplined_trans; [apply disciplined_step | apply IH].
Qed.

(** Every write to [loaded_apis] in any execution from process start is
    made with the mutex held. *)
Lemma loaded_apis_written_under_lock (r : R) (ops : list Op) :
  table_writes_under_lock false (history (run ops (initial_state r))) = true.
Proof.
  destruct (disciplined_run ops (initial_state r)) as (l & Hh & Hw & _).
  rewrite Hh. exact Hw.
Qed.

(** ** The claims *)

(** C1, as amended: over any sequence of slot invocations, availability
    probes, initialisations and version queries from process start, the
    Resolver is asked for a symbol [S] at most twice, and at most once
    unless the slot of [S] has adopted a null pointer (a slot resolution
    that returns null is not stored in [loaded_apis], so the next probe asks
    again); and once the slot of [S] has adopted a pointer, every later
    invocation of the slot adopts that same pointer. *)
Theorem resolver_called_at_most_twice (r : R) (ops : list Op) S :
  let st := run ops (initial_state r) in
  (resolver_calls S (history st) <= 2)%nat /\
  (static_entry_point st !! S <> Some nullptr ->
   (resolver_calls S (history st) <= 1)%nat) /\
  (forall p ops' version,
     static_entry_point st !! S = Some p ->
     static_local S (load_entry_point S version) (run ops' st) =
     Normal p (run ops' st)).
Proof.
  intros st.
  destruct (run_calls_inv ops (initial_state r) S (initial_calls_inv r S))
    as (I1 & I2 & _).
  split; [exact I1 |]. split; [exact I2 |].
  intros p ops' version Hp.
  apply static_local_initialised. by apply run_static_entry_point.
Qed.

(** C7: whatever the operations, [loaded_apis] never holds two different
    non-null pointers for one name: a pointer it holds for [S] at one moment
    and a pointer it holds for [S] at a later moment are the same. *)
Theorem loaded_apis_one_pointer_per_name st (ops1 ops2 : list Op) S p q :
  loaded_apis (run ops1 st) !! S = Some p ->
  loaded_apis (run ops2 (run ops1 st)) !! S = Some q ->
  p <> nullptr -> q <> nullptr ->
  p = q.
Proof.
  intros Hp Hq _ _.
  apply (run_loaded_apis ops2) in Hp. congruence.
Qed.

(** C8, what the code does: the public pointer of every slot is the
    loader's [lazilyLoadAndInvoke] after static initialisation and is still
    that after any sequence of operations; no operation stores the native
    address into it. *)
Theorem slot_pointer_never_replaced (r : R) (ops : list Op) funcName f :
  slot (run ops (initial_state r)) !! funcName = Some f ->
  exists version,
    f = LazilyLoadAndInvoke funcName version /\
    In (funcName, version) ALL_DRIVER_API_WRAPPER.
Proof.
  rewrite run_slot. simpl. apply static_slots_trampolines.
Qed.

Lemma static_local_adopts funcName (init : M R N) st p st1 :
  static_local funcName init st = Normal p st1 ->
  static_entry_point st1 !! funcName = Some p.
Proof.
  unfold static_local.
  destruct (static_entry_point st !! funcName) as [q|] eqn:Hs.
  - intros [= -> ->]. exact Hs.
  - destruct (init st) as [q st'|e st'|st']; [| done | done].
    intros [= -> <-]. simpl. apply lookup_insert_eq.
Qed.

Lemma lazilyLoadAndInvoke_null funcName version args st :
  static_entry_point st !! funcName = Some nullptr ->
  lazilyLoadAndInvoke funcName version args st =
  Thrown (c10_Error (unavailable_message funcName)) st.
Proof.
  intros Hs. rewrite lazilyLoadAndInvoke_unfold.
  by rewrite (static_local_initialised _ _ _ nullptr).
Qed.

(** C2: when the slot of [funcName] adopts a null pointer, that invocation
    throws the error that names [funcName] and points at the driver
    version, and so does every invocation of the slot after any further
    operations; no invocation returns a value. *)
Theorem null_slot_always_throws funcName version args st st1 :
  static_local funcName (load_entry_point funcName version) st =
    Normal nullptr st1 ->
  lazilyLoadAndInvoke funcName version args st =
    Thrown (c10_Error (unavailable_message funcName)) st1 /\
  (forall (ops : list Op) version' args',
     lazilyLoadAndInvoke funcName version' args' (run ops st1) =
     Thrown (c10_Error (unavailable_message funcName)) (run ops st1)) /\
  unavailable_message funcName =
    "CUDA driver API '" +:+ funcName +:+
    "' is not available. This may indicate an incompatible CUDA driver version.".
Proof.
  intros Hinit. split; [| split].
  - rewrite lazilyLoadAndInvoke_unfold, Hinit. apply check_and_invoke_null.
  - intros ops version' args'. apply lazilyLoadAndInvoke_null.
    apply run_static_entry_point. by eapply static_local_adopts.
  - reflexivity.
Qed.

(** C3, as amended: the first invocation of a slot whose name is not in
    [loaded_apis] asks the Resolver once and adopts what it returns; it
    stores the pointer in [loaded_apis] only when the pointer is not null,
    and leaves [loaded_apis] as it was when the resolution failed. *)
Theorem first_invocation_stores_non_null funcName version args st :
  static_entry_point st !! funcName = None ->
  driver_api_mutex st = false ->
  loaded_apis st !! funcName = None ->
  let p := resolved funcName version (runtime st) in
  let st' := state_of (lazilyLoadAndInvoke funcName version args st) in
  resolver_calls funcName (history st') =
    Datatypes.S (resolver_calls funcName (history st)) /\
  static_entry_point st' !! funcName = Some p /\
  loaded_apis st' =
    (if (p =? nullptr)%N then loaded_apis st
     else <[funcName := p]> (loaded_apis st)).
Proof.
  intros Hs Hm Ht p st'. subst st'.
  rewrite lazilyLoadAndInvoke_unfold, static_local_resolves by done.
  cbv zeta. fold p.
  set (st1 := state_of (getDriverEntryPoint funcName version (acquire st))).
  set (st2 := adopted funcName p
                (release (if (p =? nullptr)%N then st1 else stored funcName p st1))).
  destruct (check_and_invoke_quiet funcName args p st2) as (_ & Qt & Qs & Qc).
  rewrite Qt, Qs, Qc.
  pose proof (getDriverEntryPoint_frame funcName version (acquire st))
    as (_ & Ht1 & _ & Hs1 & _).
  fold st1 in Ht1, Hs1. subst st2.
  split; [| split].
  - subst st1. destruct (p =? nullptr)%N; count_calls;
      rewrite bool_decide_eq_true_2 by done; lia.
  - simpl. apply lookup_insert_eq.
  - destruct (p =? nullptr)%N; simpl; by rewrite Ht1.
Qed.

(** C4: with the name in [loaded_apis], [isDriverAPIAvailable] answers
    whether the cached pointer is not null and asks nothing of the runtime;
    otherwise it resolves once, stores the outcome, null included, and
    answers whether the outcome is not null, so that for a name that does
    not resolve it returns [false] and leaves a null entry. *)
Theorem isDriverAPIAvailable_spec funcName minVersion st :
  driver_api_mutex st = false ->
  (forall p,
     loaded_apis st !! funcName = Some p ->
     exists st',
       isDriverAPIAvailable funcName minVersion st =
         Normal (negb (p =? nullptr)%N) st' /\
       loaded_apis st' = loaded_apis st /\
       forall S, resolver_calls S (history st') = resolver_calls S (history st)) /\
  (loaded_apis st !! funcName = None ->
   let p := resolved funcName minVersion (runtime st) in
   exists st',
     isDriverAPIAvailable funcName minVersion st =
       Normal (negb (p =? nullptr)%N) st' /\
     loaded_apis st' = <[funcName := p]> (loaded_apis st) /\
     resolver_calls funcName (history st') =
       Datatypes.S (resolver_calls funcName (history st)) /\
     (p = nullptr ->
      isDriverAPIAvailable funcName minVersion st = Normal false st' /\
      loaded_apis st' !! funcName = Some nullptr)).
Proof.
  intros Hm. split.
  - intros p Ht. eexists. split; [by apply isDriverAPIAvailable_cached |].
    split; [done |]. intros S. count_calls. lia.
  - intros Ht p. eexists.
    split; [by apply isDriverAPIAvailable_resolves |].
    pose proof (getDriverEntryPoint_frame funcName minVersion (acquire st))
      as (_ & Ht1 & _).
    fold p. split; [| split].
    + simpl. by rewrite Ht1.
    + count_calls. rewrite bool_decide_eq_true_2 by done. lia.
    + intros Hp. rewrite isDriverAPIAvailable_resolves by done. fold p.
      rewrite Hp. split; [done |]. simpl. apply lookup_insert_eq.
Qed.

(** C5, as amended: [getDriverEntryPoint] always returns, never throws;
    when the runtime reports a status other than [cudaSuccess] it returns
    null and records one warning that names the symbol; when the runtime
    reports [cudaSuccess] it returns the pointer the runtime left, a null
    one too, and records no warning.  Whenever it returns null, the slot's
    one-time resolution completes with null, and the hard error is raised
    by the check of the invocation. *)
Theorem getDriverEntryPoint_soft_failure symbol version st :
  (exists st',
     getDriverEntryPoint symbol version st =
     Normal (resolved symbol version (runtime st)) st') /\
  (forall err p r',
     lookup_entry_point symbol version (runtime st) = ((err, p), r') ->
     err <> cudaSuccess ->
     exists st',
       getDriverEntryPoint symbol version st = Normal nullptr st' /\
       history st' =
         history st ++ [EvResolve symbol version;
                        EvWarn (load_warning symbol err)]) /\
  (forall p r',
     lookup_entry_point symbol version (runtime st) = ((cudaSuccess, p), r') ->
     exists st',
       getDriverEntryPoint symbol version st = Normal p st' /\
       history st' = history st ++ [EvResolve symbol version]) /\
  (forall args,
     static_entry_point st !! symbol = None ->
     driver_api_mutex st = false ->
     loaded_apis st !! symbol = None ->
     resolved symbol version (runtime st) = nullptr ->
     exists st1,
       static_local symbol (load_entry_point symbol version) st =
         Normal nullptr st1 /\
       lazilyLoadAndInvoke symbol version args st =
         Thrown (c10_Error (unavailable_message symbol)) st1).
Proof.
  split; [| split; [| split]].
  - eexists. apply getDriverEntryPoint_normal.
  - intros err p r' Hl Herr.
    destruct (resolved_failure _ _ _ _ _ _ Hl Herr) as [Hnull Hw].
    eexists. split.
    + rewrite getDriverEntryPoint_normal, Hnull. reflexivity.
    + by rewrite getDriverEntryPoint_history, Hw.
  - intros p r' Hl. eexists. split.
    + rewrite getDriverEntryPoint_normal. unfold resolved. by rewrite Hl.
    + rewrite getDriverEntryPoint_history. unfold resolve_warning.
      by rewrite Hl.
  - intros args Hs Hm Ht Hnull.
    assert (exists st1,
              static_local symbol (load_entry_point symbol version) st =
              Normal nullptr st1) as [st1 Hst1].
    { rewrite static_local_resolves by done. cbv zeta. rewrite Hnull.
      by eexists. }
    exists st1. split; [done |].
    rewrite lazilyLoadAndInvoke_unfold, Hst1. apply check_and_invoke_null.
Qed.

(** ** The driver version *)

Lemma getDriverVersion_memoized st :
  0 <= cached_driver_version st ->
  getDriverVersion st = Normal (cached_driver_version st) st.
Proof.
  intros Hc. unfold getDriverVersion.
  destruct (Z.leb_spec 0 (cached_driver_version st)); [done | lia].
Qed.

Lemma getDriverVersion_success st version r' :
  cached_driver_version st < 0 ->
  cudaDriverGetVersion (runtime st) = ((cudaSuccess, version), r') ->
  getDriverVersion st =
  Normal version
    (record_event (EvStoreVersion version)
       (set_cached_driver_version version
          (record_event EvQueryVersion (set_runtime r' st)))).
Proof.
  intros Hc Hq. unfold getDriverVersion.
  destruct (Z.leb_spec 0 (cached_driver_version st)); [lia |].
  unfold try_catch, bind, query_driver_version. rewrite Hq. reflexivity.
Qed.

Lemma getDriverVersion_failure st err version r' :
  cached_driver_version st < 0 ->
  cudaDriverGetVersion (runtime st) = ((err, version), r') ->
  err <> cudaSuccess ->
  getDriverVersion st =
  Normal (-1)
    (record_event
       (EvWarn ("Failed to get CUDA driver version: " +:+ cuda_error_what err))
       (record_event EvQueryVersion (set_runtime r' st))).
Proof.
  intros Hc Hq Herr. unfold getDriverVersion.
  destruct (Z.leb_spec 0 (cached_driver_version st)); [lia |].
  unfold try_catch, bind, query_driver_version, C10_CUDA_CHECK. rewrite Hq.
  destruct (Z.eqb_spec err cudaSuccess); [done |]. reflexivity.
Qed.

Lemma getDriverVersion_queries st :
  cached_driver_version st < 0 ->
  version_queries (history (state_of (getDriverVersion st))) =
  Datatypes.S (version_queries (history st)).
Proof.
  intros Hc.
  destruct (cudaDriverGetVersion (runtime st)) as [[err version] r'] eqn:Hq.
  destruct (Z.eq_dec err cudaSuccess) as [->|Herr].
  - rewrite (getDriverVersion_success _ _ _ Hc Hq). simpl.
    unfold version_queries. rewrite !count_events_app. simpl. lia.
  - rewrite (getDriverVersion_failure _ _ _ _ Hc Hq Herr). simpl.
    unfold version_queries. rewrite !count_events_app. simpl. lia.
Qed.

(** C6: [getDriverVersion] returns the memoized version and leaves
    everything as it is when the memoized version is not negative;
    otherwise it queries the runtime once, and on success memoizes and
    returns the version, while on failure it returns -1 and keeps the
    memoized value, so that the next call queries again. *)
Theorem getDriverVersion_spec st :
  (0 <= cached_driver_version st ->
   getDriverVersion st = Normal (cached_driver_version st) st) /\
  (cached_driver_version st < 0 ->
   forall err version r',
     cudaDriverGetVersion (runtime st) = ((err, version), r') ->
     (err = cudaSuccess ->
      exists st',
        getDriverVersion st = Normal version st' /\
        cached_driver_version st' = version /\
        runtime st' = r' /\
        version_queries (history st') =
          Datatypes.S (version_queries (history st))) /\
     (err <> cudaSuccess ->
      exists st',
        getDriverVersion st = Normal (-1) st' /\
        cached_driver_version st' = cached_driver_version st /\
        runtime st' = r' /\
        version_queries (history st') =
          Datatypes.S (version_queries (history st)) /\
        version_queries (history (state_of (getDriverVersion st'))) =
          Datatypes.S (version_queries (history st')))).
Proof.
  split; [apply getDriverVersion_memoized |].
  intros Hc err version r' Hq. split.
  - intros ->. eexists. split; [by apply getDriverVersion_success |].
    simpl. split; [done |]. split; [done |].
    unfold version_queries. rewrite !count_events_app. simpl. lia.
  - intros Herr. eexists.
    split; [by eapply getDriverVersion_failure |].
    simpl. split; [done |]. split; [done |]. split.
    + unfold version_queries. rewrite !count_events_app. simpl. lia.
    + by rewrite getDriverVersion_queries.
Qed.

(** C9, what the code does: a successful first [getDriverVersion] writes
    [cached_driver_version] and never takes [driver_api_mutex]; the write
    is outside any lock. *)
Theorem getDriverVersion_writes_unlocked st version r' :
  driver_api_mutex st = false ->
  cached_driver_version st < 0 ->
  cudaDriverGetVersion (runtime st) = ((cudaSuccess, version), r') ->
  let st' := state_of (getDriverVersion st) in
  cached_driver_version st' = version /\
  history st' = history st ++ [EvQueryVersion; EvStoreVersion version] /\
  writes_under_lock (driver_api_mutex st)
    [EvQueryVersion; EvStoreVersion version] = false.
Proof.
  intros Hm Hc Hq st'. subst st'.
  rewrite (getDriverVersion_success _ _ _ Hc Hq). simpl.
  split; [done |]. split; [by rewrite <- app_assoc |]. by rewrite Hm.
Qed.

(** C10: [initializeDriverAPI] takes the mutex and then calls [cuInit]
    through its slot; when that is the first use of the slot, the slot's
    initialiser asks for the mutex the thread already holds and the call
    never returns: the mutex stays held and no warning is recorded.  The
    same happens at [cuGetErrorString] when [cuInit] is resolved and
    reports an error. *)
Theorem initializeDriverAPI_self_deadlock st :
  driver_api_mutex st = false ->
  (forall version,
     slot st !! "cuInit" = Some (LazilyLoadAndInvoke "cuInit" version) ->
     static_entry_point st !! "cuInit" = None ->
     exists st',
       initializeDriverAPI st = Blocked st' /\
       driver_api_mutex st' = true /\
       warnings (history st') = warnings (history st)) /\
  (forall version version' p res r',
     slot st !! "cuInit" = Some (LazilyLoadAndInvoke "cuInit" version) ->
     static_entry_point st !! "cuInit" = Some p ->
     p <> nullptr ->
     invoke_native p [0] (runtime st) = (res, r') ->
     status res <> CUDA_SUCCESS ->
     slot st !! "cuGetErrorString" =
       Some (LazilyLoadAndInvoke "cuGetErrorString" version') ->
     static_entry_point st !! "cuGetErrorString" = None ->
     exists st',
       initializeDriverAPI st = Blocked st' /\
       driver_api_mutex st' = true /\
       warnings (history st') = warnings (history st)).
Proof.
  intros Hm. split.
  - intros version Hslot Hs. exists (acquire st).
    split; [| split].
    + unfold initializeDriverAPI, lock_guard. rewrite Hm.
      unfold try_catch, bind, call.
      change (slot (acquire st)) with (slot st). rewrite Hslot.
      unfold call_ptr. rewrite lazilyLoadAndInvoke_unfold.
      by rewrite static_local_blocked.
    + done.
    + simpl. unfold warnings. rewrite count_events_app. simpl. lia.
  - intros version version' p res r' Hslot Hs Hp Hcall Hstatus Hslot' Hs'.
    exists (record_event (EvInvoke p [0]) (set_runtime r' (acquire st))).
    split; [| split].
    + unfold initializeDriverAPI, lock_guard. rewrite Hm.
      unfold try_catch, bind. unfold call at 1.
      change (slot (acquire st)) with (slot st). rewrite Hslot.
      unfold call_ptr. rewrite lazilyLoadAndInvoke_unfold.
      rewrite (static_local_initialised _ _ _ p) by done.
      unfold check_and_invoke, bind, TORCH_CHECK.
      destruct (N.eqb_spec p nullptr) as [|_]; [done |]. simpl.
      unfold call_native at 1.
      change (runtime (acquire st)) with (runtime st). rewrite Hcall.
      destruct (Z.eqb_spec (status res) CUDA_SUCCESS) as [|_]; [done |].
      simpl. unfold call.
      match goal with
      | |- context [slot ?s !! "cuGetErrorString"] =>
          change (slot s) with (slot st)
      end.
      rewrite Hslot'. unfold call_ptr. rewrite lazilyLoadAndInvoke_unfold.
      by rewrite static_local_blocked.
    + done.
    + simpl. unfold warnings. rewrite !count_events_app. simpl. lia.
Qed.

(** * Further properties of the code *)

(** ** What leaves the driver version alone *)

Lemma count_query_warning symbol version (r : R) :
  count_events is_version_query (resolve_warning symbol version r) = O.
Proof.
  unfold resolve_warning.
  destruct (lookup_entry_point symbol version r) as [[err p] r'].
  destruct (err =? cudaSuccess); reflexivity.
Qed.

Ltac count_queries :=
  unfold version_queries in *; simpl;
  rewrite ?getDriverEntryPoint_history; simpl;
  rewrite ?count_events_app; simpl;
  rewrite ?count_query_warning.

Lemma version_untouched_refl st : version_untouched st st.
Proof. by split. Qed.

Lemma version_untouched_trans st1 st2 st3 :
  version_untouched st1 st2 -> version_untouched st2 st3 ->
  version_untouched st1 st3.
Proof. intros [Hc Hq] [Hc' Hq']. split; congruence. Qed.

Lemma version_untouched_acquire st : version_untouched st (acquire st).
Proof. split; [done |]. count_queries. lia. Qed.

Lemma version_untouched_release st : version_untouched st (release st).
Proof. split; [done |]. count_queries. lia. Qed.

Lemma version_untouched_warn msg st :
  version_untouched st (state_of (TORCH_WARN msg st)).
Proof. split; [done |]. count_queries. lia. Qed.

Lemma version_untouched_stored name p st : version_untouched st (stored name p st).
Proof. split; [done |]. count_queries. lia. Qed.

Lemma version_untouched_adopted funcName p st :
  version_untouched st (adopted funcName p st).
Proof. by split. Qed.

Lemma version_untouched_getDriverEntryPoint symbol version st :
  version_untouched st (state_of (getDriverEntryPoint symbol version st)).
Proof.
  pose proof (getDriverEntryPoint_frame symbol version st) as (_ & _ & Hc & _).
  split; [exact Hc |]. count_queries. lia.
Qed.

Lemma version_untouched_call_native p args st :
  version_untouched st (state_of (call_native p args st)).
Proof.
  unfold call_native.
  destruct (invoke_native p args (runtime st)) as [res r']. simpl.
  split; [done |]. count_queries. lia.
Qed.

Lemma version_untouched_check_and_invoke funcName args p st :
  version_untouched st (state_of (check_and_invoke funcName args p st)).
Proof.
  unfold check_and_invoke, bind, TORCH_CHECK.
  destruct (p =? nullptr)%N; simpl;
    [apply version_untouched_refl | apply version_untouched_call_native].
Qed.

Lemma version_untouched_resolve_store funcName version p st :
  version_untouched st
    (release (stored funcName p
                (state_of (getDriverEntryPoint funcName version (acquire st))))).
Proof.
  eapply version_untouched_trans; [| apply version_untouched_release].
  eapply version_untouched_trans; [| apply version_untouched_stored].
  eapply version_untouched_trans;
    [apply version_untouched_acquire
    | apply version_untouched_getDriverEntryPoint].
Qed.

Lemma version_untouched_isDriverAPIAvailable funcName minVersion st :
  version_untouched st (state_of (isDriverAPIAvailable funcName minVersion st)).
Proof.
  destruct (driver_api_mutex st) eqn:Hm.
  { unfold isDriverAPIAvailable. rewrite lock_guard_blocked by done.
    apply version_untouched_refl. }
  destruct (loaded_apis st !! funcName) as [p|] eqn:Ht.
  - rewrite (isDriverAPIAvailable_cached _ _ _ p) by done.
    eapply version_untouched_trans;
      [apply version_untouched_acquire | apply version_untouched_release].
  - rewrite isDriverAPIAvailable_resolves by done.
    apply version_untouched_resolve_store.
Qed.

Lemma version_untouched_static_local funcName version st :
  version_untouched st
    (state_of (static_local funcName (load_entry_point funcName version) st)).
Proof.
  destruct (static_entry_point st !! funcName) as [q|] eqn:Hs.
  { rewrite (static_local_initialised _ _ _ q) by done.
    apply version_untouched_refl. }
  destruct (driver_api_mutex st) eqn:Hm.
  { rewrite static_local_blocked by done. apply version_untouched_refl. }
  destruct (loaded_apis st !! funcName) as [p|] eqn:Ht.
  - rewrite (static_local_cached _ _ _ p) by done.
    eapply version_untouched_trans; [| apply version_untouched_adopted].
    eapply version_untouched_trans;
      [apply version_untouched_acquire | apply version_untouched_release].
  - rewrite static_local_resolves by done. cbv zeta.
    eapply version_untouched_trans; [| apply version_untouched_adopted].
    destruct (resolved funcName version (runtime st) =? nullptr)%N.
    + eapply version_untouched_trans; [| apply version_untouched_release].
      eapply version_untouched_trans;
        [apply version_untouched_acquire
        | apply version_untouched_getDriverEntryPoint].
    + apply version_untouched_resolve_store.
Qed.

Lemma version_untouched_call funcName args st :
  version_untouched st (state_of (call funcName args st)).
Proof.
  unfold call. destruct (slot st !! funcName) as [[n v|p]|]; simpl.
  - rewrite lazilyLoadAndInvoke_unfold.
    pose proof (version_untouched_static_local n v st) as Hd.
    destruct (static_local n (load_entry_point n v) st)
      as [q st'|e st'|st']; simpl in Hd; [| done | done].
    eapply version_untouched_trans;
      [exact Hd | apply version_untouched_check_and_invoke].
  - apply version_untouched_call_native.
  - apply version_untouched_refl.
Qed.

Lemma version_untouched_initializeDriverAPI st :
  version_untouched st (state_of (initializeDriverAPI st)).
Proof.
  unfold initializeDriverAPI, lock_guard.
  destruct (driver_api_mutex st) eqn:Hm; [apply version_untouched_refl |].
  pose proof (version_untouched_acquire st) as D0.
  pose proof (version_untouched_call "cuInit" [0] (acquire st)) as D1.
  unfold try_catch, bind.
  destruct (call "cuInit" [0] (acquire st)) as [result st1|e st1|st1];
    simpl in D1.
  - destruct (negb (status result =? CUDA_SUCCESS)).
    + pose proof (version_untouched_call "cuGetErrorString" [status result] st1)
        as D2.
      destruct (call "cuGetErrorString" [status result] st1)
        as [err st2|e st2|st2]; simpl in D2; simpl.
      * eapply version_untouched_trans; [| apply version_untouched_release].
        eapply version_untouched_trans; [| apply version_untouched_warn].
        eauto using version_untouched_trans.
      * eapply version_untouched_trans; [| apply version_untouched_release].
        eapply version_untouched_trans; [| apply version_untouched_warn].
        eauto using version_untouched_trans.
      * eauto using version_untouched_trans.
    + simpl. eapply version_untouched_trans; [| apply version_untouched_release].
      eauto using version_untouched_trans.
  - simpl. eapply version_untouched_trans; [| apply version_untouched_release].
    eapply version_untouched_trans; [| apply version_untouched_warn].
    eauto using version_untouched_trans.
  - simpl. eauto using version_untouched_trans.
Qed.

Lemma version_untouched_step op st :
  op <> GetDriverVersion -> version_untouched st (step op st).
Proof.
  intros Hop. destruct op as [funcName args|funcName minVersion| |]; simpl.
  - apply version_untouched_call.
  - apply version_untouched_isDriverAPIAvailable.
  - apply version_untouched_initializeDriverAPI.
  - done.
Qed.

Lemma version_untouched_run ops st :
  Forall (fun op => op <> GetDriverVersion) ops ->
  version_untouched st (run ops st).
Proof.
  revert st. induction ops as [|op ops IH]; intros st Hops;
    [apply version_untouched_refl |].
  apply Forall_cons in Hops as [Hop Hops].
  rewrite run_cons.
  eapply version_untouched_trans;
    [by apply version_untouched_step | by apply IH].
Qed.

(** ** What leaves the mutex as it found it *)

Lemma getDriverVersion_frame st :
  let st' := state_of (getDriverVersion st) in
  driver_api_mutex st' = driver_api_mutex st /\
  loaded_apis st' = loaded_apis st /\
  static_entry_point st' = static_entry_point st /\
  slot st' = slot st.
Proof.
  unfold getDriverVersion.
  destruct (0 <=? cached_driver_version st); [done |].
  unfold try_catch, bind, query_driver_version, C10_CUDA_CHECK.
  destruct (cudaDriverGetVersion (runtime st)) as [[err version] r'].
  by destruct (err =? cudaSuccess).
Qed.

Lemma check_and_invoke_mutex funcName args p st :
  driver_api_mutex (state_of (check_and_invoke funcName args p st)) =
  driver_api_mutex st.
Proof.
  unfold check_and_invoke, bind, TORCH_CHECK, call_native.
  destruct (p =? nullptr)%N; simpl; [done |].
  by destruct (invoke_native p args (runtime st)).
Qed.

Lemma static_local_mutex funcName version st :
  driver_api_mutex
    (state_of (static_local funcName (load_entry_point funcName version) st)) =
  driver_api_mutex st.
Proof.
  destruct (static_entry_point st !! funcName) as [q|] eqn:Hs.
  { by rewrite (static_local_initialised _ _ _ q). }
  destruct (driver_api_mutex st) eqn:Hm.
  { by rewrite static_local_blocked. }
  destruct (loaded_apis st !! funcName) as [p|] eqn:Ht.
  - by rewrite (static_local_cached _ _ _ p).
  - by rewrite static_local_resolves.
Qed.

Lemma call_mutex funcName args st :
  driver_api_mutex (state_of (call funcName args st)) = driver_api_mutex st.
Proof.
  unfold call. destruct (slot st !! funcName) as [[n v|p]|]; simpl.
  - rewrite lazilyLoadAndInvoke_unfold.
    pose proof (static_local_mutex n v st) as Hd.
    destruct (static_local n (load_entry_point n v) st)
      as [q st'|e st'|st']; simpl in Hd; [| done | done].
    by rewrite check_and_invoke_mutex.
  - unfold call_native. by destruct (invoke_native p args (runtime st)).
  - done.
Qed.

Lemma isDriverAPIAvailable_mutex funcName minVersion st :
  driver_api_mutex (state_of (isDriverAPIAvailable funcName minVersion st)) =
  driver_api_mutex st.
Proof.
  destruct (driver_api_mutex st) eqn:Hm.
  { unfold isDriverAPIAvailable. by rewrite lock_guard_blocked. }
  destruct (loaded_apis st !! funcName) as [p|] eqn:Ht.
  - by rewrite (isDriverAPIAvailable_cached _ _ _ p).
  - by rewrite isDriverAPIAvailable_resolves.
Qed.

(** The outcomes of [initializeDriverAPI]: it returns with the mutex
    released, or it is blocked; it does not throw. *)
Lemma initializeDriverAPI_outcome st :
  (exists st', initializeDriverAPI st = Normal tt st' /\
               driver_api_mutex st' = false) \/
  (exists st', initializeDriverAPI st = Blocked st').
Proof.
  unfold initializeDriverAPI, lock_guard.
  destruct (driver_api_mutex st); [right; by eexists |].
  unfold try_catch, bind.
  destruct (call "cuInit" [0] (acquire st)) as [result st1|e st1|st1].
  - destruct (negb (status result =? CUDA_SUCCESS)).
    + destruct (call "cuGetErrorString" [status result] st1)
        as [err st2|e st2|st2]; simpl.
      * left. by eexists.
      * left. by eexists.
      * right. by eexists.
    + left. by eexists.
  - left. by eexists.
  - right. by eexists.
Qed.

(** ** The slot *)

Lemma resolved_slot_call funcName version args st p res r' :
  static_entry_point st !! funcName = Some p ->
  p <> nullptr ->
  invoke_native p args (runtime st) = (res, r') ->
  lazilyLoadAndInvoke funcName version args st =
  Normal res (record_event (EvInvoke p args) (set_runtime r' st)).
Proof.
  intros Hs Hp Hcall. rewrite lazilyLoadAndInvoke_unfold.
  rewrite (static_local_initialised _ _ _ p) by done.
  unfold check_and_invoke, bind, TORCH_CHECK, call_native.
  destruct (N.eqb_spec p nullptr) as [|_]; [done |]. simpl.
  by rewrite Hcall.
Qed.


(** X1: a slot that has adopted a pointer other than null forwards the
    call: it hands the caller's arguments to the native function and
    returns its result as it is, takes no lock (so it also runs while the
    mutex is held), and changes nothing but the runtime. *)
Theorem resolved_slot_forwards funcName version args st p res r' :
  static_entry_point st !! funcName = Some p ->
  p <> nullptr ->
  invoke_native p args (runtime st) = (res, r') ->
  lazilyLoadAndInvoke funcName version args st =
  Normal res (record_event (EvInvoke p args) (set_runtime r' st)).
Proof. apply resolved_slot_call. Qed.

(** X2: the first invocation of a slot whose name a probe has already put
    in [loaded_apis] adopts the cached pointer and does not ask the
    Resolver; with a cached null it throws the unavailable error, with any
    other pointer it returns what the native function returns. *)
Theorem slot_adopts_cached_pointer funcName version args st p :
  static_entry_point st !! funcName = None ->
  driver_api_mutex st = false ->
  loaded_apis st !! funcName = Some p ->
  let st' := state_of (lazilyLoadAndInvoke funcName version args st) in
  static_entry_point st' !! funcName = Some p /\
  loaded_apis st' = loaded_apis st /\
  (forall S, resolver_calls S (history st') = resolver_calls S (history st)) /\
  (p = nullptr ->
   lazilyLoadAndInvoke funcName version args st =
   Thrown (c10_Error (unavailable_message funcName))
     (adopted funcName p (release (acquire st)))) /\
  (p <> nullptr ->
   exists st'',
     lazilyLoadAndInvoke funcName version args st =
     Normal (invoke_native p args (runtime st)).1 st'').
Proof.
  intros Hs Hm Ht st'. subst st'.
  rewrite lazilyLoadAndInvoke_unfold, (static_local_cached _ _ _ p) by done.
  set (st1 := adopted funcName p (release (acquire st))).
  destruct (check_and_invoke_quiet funcName args p st1) as (_ & Qt & Qs & Qc).
  split; [| split; [| split; [| split]]].
  - rewrite Qs. subst st1. simpl. apply lookup_insert_eq.
  - rewrite Qt. reflexivity.
  - intros S. rewrite Qc. subst st1. count_calls. lia.
  - intros ->. reflexivity.
  - intros Hp. unfold check_and_invoke, bind, TORCH_CHECK, call_native.
    destruct (N.eqb_spec p nullptr) as [|_]; [done |]. simpl.
    change (runtime st1) with (runtime st).
    destruct (invoke_native p args (runtime st)) as [res r']. by eexists.
Qed.

(** X3: what a resolving first invocation does, in order: it locks, asks
    the Resolver with the version of the slot's declaration, records the
    warning of a failure, stores a pointer that is not null, unlocks, and
    only then calls the native function; it ends with the mutex free. *)
Theorem first_use_trace funcName version args st :
  static_entry_point st !! funcName = None ->
  driver_api_mutex st = false ->
  loaded_apis st !! funcName = None ->
  let p := resolved funcName version (runtime st) in
  let st' := state_of (lazilyLoadAndInvoke funcName version args st) in
  history st' =
    history st ++ [EvLock; EvResolve funcName version]
    ++ resolve_warning funcName version (runtime st)
    ++ (if (p =? nullptr)%N then [EvUnlock]
        else [EvStoreApi funcName p; EvUnlock; EvInvoke p args]) /\
  driver_api_mutex st' = false.
Proof.
  intros Hs Hm Ht p st'. subst st'.
  rewrite lazilyLoadAndInvoke_unfold, static_local_resolves by done.
  cbv zeta. fold p.
  unfold check_and_invoke, bind, TORCH_CHECK, call_native.
  destruct (p =? nullptr)%N; simpl.
  - split; [| done].
    rewrite getDriverEntryPoint_history. simpl.
    by rewrite <- !app_assoc.
  - match goal with
    | |- context [invoke_native p args ?r] =>
        destruct (invoke_native p args r) as [res r']
    end.
    simpl. split; [| done].
    rewrite getDriverEntryPoint_history. simpl.
    by rewrite <- !app_assoc.
Qed.

Lemma static_local_other S funcName version st :
  S <> funcName ->
  let st' :=
    state_of (static_local funcName (load_entry_point funcName version) st) in
  loaded_apis st' !! S = loaded_apis st !! S /\
  static_entry_point st' !! S = static_entry_point st !! S /\
  resolver_calls S (history st') = resolver_calls S (history st).
Proof.
  intros Hne.
  destruct (static_entry_point st !! funcName) as [q|] eqn:Hs.
  { by rewrite (static_local_initialised _ _ _ q). }
  destruct (driver_api_mutex st) eqn:Hm.
  { by rewrite static_local_blocked. }
  destruct (loaded_apis st !! funcName) as [p|] eqn:Ht.
  { rewrite (static_local_cached _ _ _ p) by done. simpl.
    split; [done |]. split; [by rewrite lookup_insert_ne |].
    count_calls. lia. }
  rewrite static_local_resolves by done.
  pose proof (getDriverEntryPoint_frame funcName version (acquire st))
    as (_ & Ht1 & _ & Hs1 & _).
  cbv zeta. set (p := resolved funcName version (runtime st)).
  split; [| split].
  - destruct (p =? nullptr)%N; simpl; rewrite ?Ht1; simpl;
      [done | by rewrite lookup_insert_ne].
  - destruct (p =? nullptr)%N; simpl; rewrite ?Hs1; simpl;
      by rewrite lookup_insert_ne.
  - destruct (p =? nullptr)%N; count_calls;
      rewrite bool_decide_eq_false_2 by done; lia.
Qed.

(** X4: an invocation of the slot of [funcName] and a probe of [funcName]
    leave every other symbol as it was: its entry in [loaded_apis], the
    pointer its slot has adopted, and the number of Resolver calls for it. *)
Theorem other_symbols_untouched S funcName version args minVersion st :
  S <> funcName ->
  let st1 := state_of (lazilyLoadAndInvoke funcName version args st) in
  let st2 := state_of (isDriverAPIAvailable funcName minVersion st) in
  (loaded_apis st1 !! S = loaded_apis st !! S /\
   static_entry_point st1 !! S = static_entry_point st !! S /\
   resolver_calls S (history st1) = resolver_calls S (history st)) /\
  (loaded_apis st2 !! S = loaded_apis st !! S /\
   static_entry_point st2 !! S = static_entry_point st !! S /\
   resolver_calls S (history st2) = resolver_calls S (history st)).
Proof.
  intros Hne st1 st2. split.
  - subst st1. rewrite lazilyLoadAndInvoke_unfold.
    pose proof (static_local_other S funcName version st Hne) as Ho.
    destruct (static_local funcName (load_entry_point funcName version) st)
      as [p st'|e st'|st']; simpl in Ho; [| done | done].
    destruct (check_and_invoke_quiet funcName args p st') as (_ & Qt & Qs & Qc).
    by rewrite Qt, Qs, Qc.
  - subst st2.
    destruct (driver_api_mutex st) eqn:Hm.
    { unfold isDriverAPIAvailable. by rewrite lock_guard_blocked. }
    destruct (loaded_apis st !! funcName) as [p|] eqn:Ht.
    { rewrite (isDriverAPIAvailable_cached _ _ _ p) by done. simpl.
      split; [done |]. split; [done |]. count_calls. lia. }
    rewrite isDriverAPIAvailable_resolves by done.
    pose proof (getDriverEntryPoint_frame funcName minVersion (acquire st))
      as (_ & Ht1 & _ & Hs1 & _).
    simpl. rewrite Ht1, Hs1. simpl.
    split; [by rewrite lookup_insert_ne |]. split; [done |].
    count_calls. rewrite bool_decide_eq_false_2 by done. lia.
Qed.

(** ** The mutex *)

Lemma step_locked op st :
  driver_api_mutex st = true ->
  quiet st (step op st) /\ driver_api_mutex (step op st) = true.
Proof.
  intros Hm. destruct op as [funcName args|funcName minVersion| |]; simpl.
  - by apply call_locked.
  - unfold isDriverAPIAvailable. rewrite lock_guard_blocked by done.
    split; [apply quiet_refl | done].
  - unfold initializeDriverAPI. rewrite lock_guard_blocked by done.
    split; [apply quiet_refl | done].
  - split; [apply getDriverVersion_quiet |].
    destruct (getDriverVersion_frame st) as (Hm' & _). by rewrite Hm'.
Qed.

(** X5: once the mutex is left held, it stays held over every further
    operation, and from then on [loaded_apis] and the pointers adopted by
    the slots never change and the Resolver is never asked again. *)
Theorem held_mutex_freezes_resolution st (ops : list Op) :
  driver_api_mutex st = true ->
  driver_api_mutex (run ops st) = true /\
  loaded_apis (run ops st) = loaded_apis st /\
  static_entry_point (run ops st) = static_entry_point st /\
  forall S, resolver_calls S (history (run ops st)) =
            resolver_calls S (history st).
Proof.
  revert st. induction ops as [|op ops IH]; intros st Hm; [done |].
  rewrite run_cons.
  destruct (step_locked op st Hm) as [(_ & Qt & Qs & Qc) Hm'].
  destruct (IH _ Hm') as (Im & It & Is & Ic).
  split; [done |]. split; [congruence |]. split; [congruence |].
  intros S. by rewrite Ic, Qc.
Qed.

(** X6: with the mutex free, the only operation that can leave it held is
    an [initializeDriverAPI] that blocks; slot calls, probes and version
    queries leave the mutex free. *)
Theorem only_initialize_keeps_mutex op st :
  driver_api_mutex st = false ->
  driver_api_mutex (step op st) = true ->
  op = InitializeDriverAPI /\
  exists st', initializeDriverAPI st = Blocked st'.
Proof.
  intros Hm Hheld. destruct op as [funcName args|funcName minVersion| |];
    simpl in Hheld.
  - rewrite call_mutex in Hheld. congruence.
  - rewrite isDriverAPIAvailable_mutex in Hheld. congruence.
  - split; [done |].
    destruct (initializeDriverAPI_outcome st)
      as [(st' & Hret & Hfree)|(st' & Hblock)].
    + rewrite Hret in Hheld. simpl in Hheld. congruence.
    + by exists st'.
  - destruct (getDriverVersion_frame st) as (Hm' & _).
    rewrite Hm' in Hheld. congruence.
Qed.

(** ** Initialisation *)

(** X7: [initializeDriverAPI] never lets an exception out, and it never
    resolves anything: [loaded_apis], the pointers adopted by the slots
    and the public pointers are as before and the Resolver is not asked. *)
Theorem initializeDriverAPI_contained st :
  (forall e st', initializeDriverAPI st <> Thrown e st') /\
  quiet st (state_of (initializeDriverAPI st)).
Proof.
  split; [| apply initializeDriverAPI_quiet].
  intros e st' Hthrown.
  destruct (initializeDriverAPI_outcome st)
    as [(st1 & Hret & _)|(st1 & Hblock)]; congruence.
Qed.

Lemma call_trampoline funcName version args st :
  slot st !! funcName = Some (LazilyLoadAndInvoke funcName version) ->
  call funcName args st = lazilyLoadAndInvoke funcName version args st.
Proof. intros Hslot. unfold call. by rewrite Hslot. Qed.

Lemma initializeDriverAPI_unlocked st :
  driver_api_mutex st = false ->
  initializeDriverAPI st =
  match
    match call "cuInit" [0] (acquire st) with
    | Normal result st1 =>
        if negb (status result =? CUDA_SUCCESS) then
          match call "cuGetErrorString" [status result] st1 with
          | Normal err st2 =>
              TORCH_WARN ("Failed to initialize CUDA driver: " +:+
                          match out_string err with
                          | Some error_string => error_string
                          | None => "Unknown error"
                          end) st2
          | Thrown e st2 =>
              TORCH_WARN "Exception during CUDA driver initialization" st2
          | Blocked st2 => Blocked st2
          end
        else Normal tt st1
    | Thrown e st1 =>
        TORCH_WARN "Exception during CUDA driver initialization" st1
    | Blocked st1 => Blocked st1
    end
  with
  | Normal a st' => Normal a (release st')
  | Thrown e st' => Thrown e (release st')
  | Blocked st' => Blocked st'
  end.
Proof.
  intros Hm. unfold initializeDriverAPI, lock_guard. rewrite Hm.
  unfold try_catch, bind.
  destruct (call "cuInit" [0] (acquire st)) as [result st1|e st1|st1];
    [| done | done].
  destruct (negb (status result =? CUDA_SUCCESS)); [| done].
  by destruct (call "cuGetErrorString" [status result] st1).
Qed.

(** X8: with the slot of [cuInit] resolved and the driver reporting
    success, [initializeDriverAPI] returns having done one thing: it called
    the native [cuInit] with argument 0, between locking and unlocking the
    mutex; no warning is recorded. *)
Theorem initializeDriverAPI_success st version p res r' :
  driver_api_mutex st = false ->
  slot st !! "cuInit" = Some (LazilyLoadAndInvoke "cuInit" version) ->
  static_entry_point st !! "cuInit" = Some p ->
  p <> nullptr ->
  invoke_native p [0] (runtime st) = (res, r') ->
  status res = CUDA_SUCCESS ->
  initializeDriverAPI st =
  Normal tt
    (release (record_event (EvInvoke p [0]) (set_runtime r' (acquire st)))).
Proof.
  intros Hm Hslot Hs Hp Hcall Hok.
  rewrite initializeDriverAPI_unlocked by done.
  rewrite (call_trampoline _ version) by done.
  rewrite (resolved_slot_call "cuInit" version [0] (acquire st) p res r')
    by done.
  rewrite Hok. reflexivity.
Qed.

(** X9: with the slot of [cuInit] holding null, the unavailable error
    thrown by the slot is caught inside [initializeDriverAPI]: the call
    returns normally, the mutex is released, and the one warning recorded
    does not name the symbol. *)
Theorem initializeDriverAPI_swallows_unavailable st version :
  driver_api_mutex st = false ->
  slot st !! "cuInit" = Some (LazilyLoadAndInvoke "cuInit" version) ->
  static_entry_point st !! "cuInit" = Some nullptr ->
  initializeDriverAPI st =
  Normal tt
    (release (record_event
                (EvWarn "Exception during CUDA driver initialization")
                (acquire st))).
Proof.
  intros Hm Hslot Hs.
  rewrite initializeDriverAPI_unlocked by done.
  rewrite (call_trampoline _ version) by done.
  by rewrite lazilyLoadAndInvoke_null.
Qed.

(** X10: when the native [cuInit] reports an error and the slot of
    [cuGetErrorString] is resolved, [initializeDriverAPI] asks it for the
    text of that status and returns normally with one warning that carries
    the text, or "Unknown error" when the driver gave none. *)
Theorem initializeDriverAPI_reports_error
    st version version' p q res r' err r'' :
  driver_api_mutex st = false ->
  slot st !! "cuInit" = Some (LazilyLoadAndInvoke "cuInit" version) ->
  static_entry_point st !! "cuInit" = Some p ->
  p <> nullptr ->
  invoke_native p [0] (runtime st) = (res, r') ->
  status res <> CUDA_SUCCESS ->
  slot st !! "cuGetErrorString" =
    Some (LazilyLoadAndInvoke "cuGetErrorString" version') ->
  static_entry_point st !! "cuGetErrorString" = Some q ->
  q <> nullptr ->
  invoke_native q [status res] r' = (err, r'') ->
  initializeDriverAPI st =
  Normal tt
    (release
       (record_event
          (EvWarn ("Failed to initialize CUDA driver: " +:+
                   match out_string err with
                   | Some error_string => error_string
                   | None => "Unknown error"
                   end))
          (record_event (EvInvoke q [status res])
             (set_runtime r''
                (record_event (EvInvoke p [0])
                   (set_runtime r' (acquire st))))))).
Proof.
  intros Hm Hslot Hs Hp Hcall Herr Hslot' Hs' Hq Hcall'.
  rewrite initializeDriverAPI_unlocked by done.
  rewrite (call_trampoline _ version) by done.
  rewrite (resolved_slot_call "cuInit" version [0] (acquire st) p res r')
    by done.
  destruct (Z.eqb_spec (status res) CUDA_SUCCESS) as [|_]; [done |].
  simpl negb. cbv iota.
  rewrite (call_trampoline _ version') by done.
  by rewrite (resolved_slot_call "cuGetErrorString" version' [status res]
                _ q err r'').
Qed.

(** ** The symbols of the header *)

Lemma declared_names_NoDup : NoDup (ALL_DRIVER_API_WRAPPER.*1).
Proof.
  unfold ALL_DRIVER_API_WRAPPER.
  destruct (12000 <=? CUDA_VERSION)%N;
    [| destruct (11000 <=? CUDA_VERSION)%N].
  - apply (bool_decide_unpack _). vm_compute. exact I.
  - apply (bool_decide_unpack _). vm_compute. exact I.
  - apply NoDup_nil_2.
Qed.

Lemma static_slots_declared funcName version :
  In (funcName, version) ALL_DRIVER_API_WRAPPER ->
  static_slots !! funcName = Some (LazilyLoadAndInvoke funcName version).
Proof.
  intros Hin. unfold static_slots.
  apply elem_of_list_to_map_1.
  - rewrite <- list_fmap_compose.
    replace (fst ∘ DEFINE_DRIVER_API_WRAPPER) with (@fst string N) by done.
    apply declared_names_NoDup.
  - apply list_elem_of_In in Hin.
    apply (list_elem_of_fmap_2 DEFINE_DRIVER_API_WRAPPER) in Hin.
    exact Hin.
Qed.

Lemma cuInit_declared :
  (11000 <= CUDA_VERSION)%N ->
  In ("cuInit", 11000%N) ALL_DRIVER_API_WRAPPER /\
  In ("cuGetErrorString", 11000%N) ALL_DRIVER_API_WRAPPER.
Proof.
  intros Hv. unfold ALL_DRIVER_API_WRAPPER.
  destruct (12000 <=? CUDA_VERSION)%N.
  - split; apply in_or_app; left; unfold ALL_DRIVER_API_WRAPPER_CUDA;
      simpl; tauto.
  - destruct (N.leb_spec 11000 CUDA_VERSION); [| lia].
    split; apply in_or_app; left; unfold ALL_DRIVER_API_WRAPPER_CUDA;
      simpl; tauto.
Qed.

Lemma initializeDriverAPI_blocks_first_use st version :
  slot st !! "cuInit" = Some (LazilyLoadAndInvoke "cuInit" version) ->
  static_entry_point st !! "cuInit" = None ->
  initializeDriverAPI st =
  Blocked (if driver_api_mutex st then st else acquire st).
Proof.
  intros Hslot Hs. destruct (driver_api_mutex st) eqn:Hm.
  { unfold initializeDriverAPI. by rewrite lock_guard_blocked. }
  rewrite initializeDriverAPI_unlocked by done.
  rewrite (call_trampoline _ version) by done.
  rewrite lazilyLoadAndInvoke_unfold.
  by rewrite static_local_blocked.
Qed.

(** X11: in a build for CUDA 11.0 or later, [initializeDriverAPI] cannot
    be the first user of [cuInit]: in every state the process can reach in
    which the slot of [cuInit] has not been used yet, it blocks, and so it
    does when it is the first operation of the process. *)
Theorem initializeDriverAPI_needs_prior_cuInit (r : R) (ops : list Op) :
  (11000 <= CUDA_VERSION)%N ->
  let st := run ops (initial_state r) in
  (static_entry_point st !! "cuInit" = None ->
   exists st', initializeDriverAPI st = Blocked st') /\
  initializeDriverAPI (initial_state r) = Blocked (acquire (initial_state r)).
Proof.
  intros Hv st. destruct (cuInit_declared Hv) as [Hinit _].
  apply static_slots_declared in Hinit. split.
  - intros Hs. eexists.
    apply (initializeDriverAPI_blocks_first_use st 11000%N); [| done].
    subst st. by rewrite run_slot.
  - by rewrite (initializeDriverAPI_blocks_first_use _ 11000%N).
Qed.

(** X12: no name is declared twice, and every symbol of
    [ALL_DRIVER_API_WRAPPER] has its public pointer, in every state the
    process can reach: the loader built for that name with the minimum
    version of its declaration. *)
Theorem declared_symbols_have_slots (r : R) (ops : list Op) funcName version :
  In (funcName, version) ALL_DRIVER_API_WRAPPER ->
  NoDup (ALL_DRIVER_API_WRAPPER.*1) /\
  slot (run ops (initial_state r)) !! funcName =
    Some (LazilyLoadAndInvoke funcName version).
Proof.
  intros Hin. split; [apply declared_names_NoDup |].
  rewrite run_slot. simpl. by apply static_slots_declared.
Qed.

(** X13: the minimum version of every declared symbol is 11000 or 12000
    and never above the [CUDA_VERSION] of the build; the build declares 29
    symbols from 12.0 on, 27 from 11.0 on, and none below. *)
Theorem declared_versions_bounded :
  (forall funcName version,
     In (funcName, version) ALL_DRIVER_API_WRAPPER ->
     (version = 11000 \/ version = 12000)%N /\
     (version <= CUDA_VERSION)%N) /\
  length ALL_DRIVER_API_WRAPPER =
    (if (12000 <=? CUDA_VERSION)%N then 29
     else if (11000 <=? CUDA_VERSION)%N then 27 else 0)%nat.
Proof.
  unfold ALL_DRIVER_API_WRAPPER. split.
  - intros funcName version.
    destruct (N.leb_spec 12000 CUDA_VERSION);
      [| destruct (N.leb_spec 11000 CUDA_VERSION)].
    + intros Hin. simpl in Hin.
      repeat (destruct Hin as [[= <- <-]|Hin]; [split; [tauto | lia] |]).
      done.
    + intros Hin. simpl in Hin.
      repeat (destruct Hin as [[= <- <-]|Hin]; [split; [tauto | lia] |]).
      done.
    + intros [].
  - destruct (12000 <=? CUDA_VERSION)%N;
      [| destruct (11000 <=? CUDA_VERSION)%N]; reflexivity.
Qed.

(** ** The driver version, continued *)

(** X14: [getDriverVersion] always returns: it neither throws nor blocks,
    whatever the mutex; its answer is the memoized version it leaves
    behind or -1; and it never touches the mutex, [loaded_apis], the slots
    or the Resolver. *)
Theorem getDriverVersion_always_returns st :
  exists v st',
    getDriverVersion st = Normal v st' /\
    (v = cached_driver_version st' \/ v = -1) /\
    driver_api_mutex st' = driver_api_mutex st /\
    quiet st st'.
Proof.
  pose proof (getDriverVersion_quiet st) as Hq.
  pose proof (getDriverVersion_frame st) as (Hm & _).
  revert Hq Hm. unfold getDriverVersion.
  destruct (0 <=? cached_driver_version st).
  { intros Hq Hm. exists (cached_driver_version st), st. by repeat split; auto. }
  unfold try_catch, bind, query_driver_version, C10_CUDA_CHECK.
  destruct (cudaDriverGetVersion (runtime st)) as [[err version] r'].
  destruct (err =? cudaSuccess); simpl; intros Hq Hm.
  - eexists version, _. split; [reflexivity |]. split; [by left |]. done.
  - eexists (-1), _. split; [reflexivity |]. split; [by right |]. done.
Qed.

(** X15: slot calls, probes and initialisations do not disturb a memoized
    version: with a memoized version that is not negative, after any
    sequence of such operations (no [getDriverVersion] among them) the
    memoized version is the same, the runtime has not been asked for the
    version, and a call of [getDriverVersion] returns it unchanged. *)
Theorem driver_version_is_final st (ops : list Op) :
  0 <= cached_driver_version st ->
  Forall (fun op => op <> GetDriverVersion) ops ->
  cached_driver_version (run ops st) = cached_driver_version st /\
  version_queries (history (run ops st)) = version_queries (history st) /\
  getDriverVersion (run ops st) =
    Normal (cached_driver_version st) (run ops st).
Proof.
  intros Hc Hops. destruct (version_untouched_run ops st Hops) as [Hc' Hq].
  split; [done |]. split; [done |].
  rewrite <- Hc'. apply getDriverVersion_memoized. by rewrite Hc'.
Qed.

(** X16: a negative version that the runtime reports with a success status
    is returned to the caller and stored, but it does not count as
    memoized: the next call asks the runtime again. *)
Theorem negative_version_not_memoized st version r' :
  cached_driver_version st < 0 ->
  cudaDriverGetVersion (runtime st) = ((cudaSuccess, version), r') ->
  version < 0 ->
  exists st',
    getDriverVersion st = Normal version st' /\
    cached_driver_version st' = version /\
    version_queries (history (state_of (getDriverVersion st'))) =
      Datatypes.S (version_queries (history st')).
Proof.
  intros Hc Hq Hv. eexists.
  split; [by apply getDriverVersion_success |].
  split; [done |]. by apply getDriverVersion_queries.
Qed.

(** ** The Resolver and the probe, continued *)

(** X17: in a build for a CUDA version below 12.5 the minimum version plays
    no part in a resolution: [getDriverEntryPoint] returns the same pointer
    and leaves the same runtime for any two versions, and a probe gives the
    same answer and the same [loaded_apis] for any two minimum versions. *)
Theorem version_ignored_below_12050 symbol version version' st :
  (CUDA_VERSION < 12050)%N ->
  resolved symbol version (runtime st) = resolved symbol version' (runtime st) /\
  runtime (state_of (getDriverEntryPoint symbol version st)) =
    runtime (state_of (getDriverEntryPoint symbol version' st)) /\
  (driver_api_mutex st = false ->
   exists b st1 st2,
     isDriverAPIAvailable symbol version st = Normal b st1 /\
     isDriverAPIAvailable symbol version' st = Normal b st2 /\
     loaded_apis st1 = loaded_apis st2).
Proof.
  intros Hv.
  assert (forall r, lookup_entry_point symbol version r =
                    lookup_entry_point symbol version' r) as Hl.
  { intros r. unfold lookup_entry_point.
    destruct (N.leb_spec 12050 CUDA_VERSION); [lia | done]. }
  assert (resolved symbol version (runtime st) =
          resolved symbol version' (runtime st)) as Hr
    by (unfold resolved; by rewrite Hl).
  split; [exact Hr |]. split.
  - pose proof (getDriverEntryPoint_frame symbol version st)
      as (_ & _ & _ & _ & _ & ->).
    pose proof (getDriverEntryPoint_frame symbol version' st)
      as (_ & _ & _ & _ & _ & ->).
    by rewrite Hl.
  - intros Hm. destruct (loaded_apis st !! symbol) as [p|] eqn:Ht.
    + eexists _, _, _.
      split; [by apply (isDriverAPIAvailable_cached _ _ _ p) |].
      split; [by apply (isDriverAPIAvailable_cached _ _ _ p) |]. done.
    + eexists _, _, _.
      split; [by apply isDriverAPIAvailable_resolves |].
      split; [rewrite Hr; by apply isDriverAPIAvailable_resolves |].
      pose proof (getDriverEntryPoint_frame symbol version (acquire st))
        as (_ & Ht1 & _).
      pose proof (getDriverEntryPoint_frame symbol version' (acquire st))
        as (_ & Ht2 & _).
      simpl. by rewrite Ht1, Ht2, Hr.
Qed.

Lemma isDriverAPIAvailable_caches funcName minVersion st b st1 :
  isDriverAPIAvailable funcName minVersion st = Normal b st1 ->
  exists p, loaded_apis st1 !! funcName = Some p /\
            b = negb (p =? nullptr)%N.
Proof.
  destruct (driver_api_mutex st) eqn:Hm.
  { unfold isDriverAPIAvailable. by rewrite lock_guard_blocked. }
  destruct (loaded_apis st !! funcName) as [p|] eqn:Ht.
  - rewrite (isDriverAPIAvailable_cached _ _ _ p) by done.
    intros [= <- <-]. by exists p.
  - rewrite isDriverAPIAvailable_resolves by done.
    intros [= <- <-]. eexists. split; [| reflexivity].
    simpl. apply lookup_insert_eq.
Qed.

(** X18: the answer of a probe is final: once [isDriverAPIAvailable] has
    answered for a name, every later probe of that name, after whatever
    operations and with whatever minimum version, gives the same answer and
    does not ask the Resolver (it needs the mutex free to answer at all). *)
Theorem probe_answer_is_final funcName minVersion minVersion' st b st1
    (ops : list Op) :
  isDriverAPIAvailable funcName minVersion st = Normal b st1 ->
  driver_api_mutex (run ops st1) = false ->
  exists st2,
    isDriverAPIAvailable funcName minVersion' (run ops st1) = Normal b st2 /\
    forall S, resolver_calls S (history st2) =
              resolver_calls S (history (run ops st1)).
Proof.
  intros Hprobe Hm.
  destruct (isDriverAPIAvailable_caches _ _ _ _ _ Hprobe) as (p & Hp & ->).
  apply (run_loaded_apis ops) in Hp.
  eexists. split; [by apply isDriverAPIAvailable_cached |].
  intros S. count_calls. lia.
Qed.

(** ** Slots against the table *)

Lemma advance_slots_agree st st' :
  (forall S, advance S st st') -> slots_agree st -> slots_agree st'.
Proof.
  intros Ha Hagree S q Hq Hnn.
  destruct (Ha S) as [_ [(Ht & Hs & _)|[(Hs & _ & Ht & Hs' & _)
                     |[(_ & _ & _ & p & Hs' & Ht')|(Ht & Hs & _)]]]].
  - rewrite Ht. apply Hagree; [by rewrite <- Hs | done].
  - by rewrite Ht, <- Hs'.
  - rewrite Hs' in Hq. injection Hq as ->. rewrite Ht'.
    destruct (N.eqb_spec q nullptr); done.
  - rewrite Hs in Hq. specialize (Hagree S q Hq Hnn). congruence.
Qed.

Lemma run_slots_agree ops st : slots_agree st -> slots_agree (run ops st).
Proof.
  revert st. induction ops as [|op ops IH]; intros st Hi; [done |].
  rewrite run_cons. apply IH.
  eapply advance_slots_agree; [| done].
  intros S. apply step_advance.
Qed.

(** X19: in every state the process can reach, a slot that has adopted a
    pointer other than null has the very pointer that [loaded_apis] holds
    for its name. *)
Theorem slot_pointer_is_cached (r : R) (ops : list Op) S q :
  static_entry_point (run ops (initial_state r)) !! S = Some q ->
  q <> nullptr ->
  loaded_apis (run ops (initial_state r)) !! S = Some q.
Proof.
  apply run_slots_agree. intros S' q' Hq. simpl in Hq.
  by rewrite lookup_empty in Hq.
Qed.

(** X20: over any sequence of operations from process start, every store
    into [loaded_apis] is made between a lock and the next unlock, and the
    locks and unlocks recorded account for the state of the mutex. *)
Theorem lock_discipline_of_runs (r : R) (ops : list Op) :
  let st := run ops (initial_state r) in
  table_writes_under_lock false (history st) = true /\
  mutex_after false (history st) = driver_api_mutex st.
Proof.
  intros st. subst st.
  destruct (disciplined_run ops (initial_state r)) as (l & Hh & Hw & Hm).
  rewrite Hh. by split.
Qed.


(** ** Two more edges *)

(** X22: when the runtime reports success, [getDriverEntryPoint] hands on
    whatever pointer the runtime left, a null one too, and records no
    warning; a probe of such a symbol then answers [false] and caches null
    with no warning on record. *)
Theorem getDriverEntryPoint_success_passthrough symbol version st p r' :
  lookup_entry_point symbol version (runtime st) = ((cudaSuccess, p), r') ->
  (exists st',
     getDriverEntryPoint symbol version st = Normal p st' /\
     history st' = history st ++ [EvResolve symbol version]) /\
  (p = nullptr ->
   driver_api_mutex st = false ->
   loaded_apis st !! symbol = None ->
   exists st',
     isDriverAPIAvailable symbol version st = Normal false st' /\
     loaded_apis st' !! symbol = Some nullptr /\
     warnings (history st') = warnings (history st)).
Proof.
  intros Hl.
  assert (resolved symbol version (runtime st) = p) as Hr
    by (unfold resolved; by rewrite Hl).
  assert (resolve_warning symbol version (runtime st) = []) as Hw
    by (unfold resolve_warning; by rewrite Hl).
  split.
  - eexists. split.
    + rewrite getDriverEntryPoint_normal, Hr. reflexivity.
    + by rewrite getDriverEntryPoint_history, Hw.
  - intros -> Hm Ht. eexists.
    split; [rewrite isDriverAPIAvailable_resolves by done;
            change (runtime (acquire st)) with (runtime st);
            rewrite Hr; reflexivity |].
    split; [simpl; apply lookup_insert_eq |].
    unfold warnings. simpl. rewrite getDriverEntryPoint_history. simpl.
    rewrite Hw. rewrite !count_events_app. simpl. lia.
Qed.

(** X23: slot calls, probes and [initializeDriverAPI] never change the
    memoized driver version and never ask the runtime for the version;
    only [getDriverVersion] does. *)
Theorem version_moved_by_getDriverVersion_only op st :
  op <> GetDriverVersion ->
  version_untouched st (step op st).
Proof.
  intros Hop. destruct op as [funcName args|funcName minVersion| |]; simpl.
  - apply version_untouched_call.
  - apply version_untouched_isDriverAPIAvailable.
  - apply version_untouched_initializeDriverAPI.
  - done.
Qed.

End Properties.

(** * The stub runtime at work

    Each statement above that has a premise is applied to the stub runtime,
    and the statements of the specification that the code does not meet
    are refuted on it. *)

Import Stub.

(** C1 as the specification has it fails: a slot whose resolution fails
    and a probe of the same symbol ask the Resolver twice. *)
Lemma resolver_called_twice :
  ~ (resolver_calls "cuStreamCreate"
       (history (run [CallSlot "cuStreamCreate" [];
                      IsDriverAPIAvailable "cuStreamCreate" 11000%N] start))
     <= 1)%nat.
Proof. vm_compute. lia. Qed.

Lemma resolver_called_at_most_twice_witness :
  let st := run [CallSlot "cuGetErrorName" [1];
                 IsDriverAPIAvailable "cuGetErrorName" 11000%N] start in
  (resolver_calls "cuGetErrorName" (history st) <= 1)%nat /\
  static_local "cuGetErrorName" (load_entry_point "cuGetErrorName" 11000%N)
    (run [GetDriverVersion] st) = Normal 4110%N (run [GetDriverVersion] st).
Proof.
  intros st.
  destruct (resolver_called_at_most_twice 0%nat
              [CallSlot "cuGetErrorName" [1];
               IsDriverAPIAvailable "cuGetErrorName" 11000%N]
              "cuGetErrorName") as (_ & H2 & H3).
  split.
  - apply H2. vm_compute. discriminate.
  - apply H3. vm_compute. reflexivity.
Defined.

Lemma null_slot_always_throws_witness :
  exists st1,
    static_local "cuStreamCreate" (load_entry_point "cuStreamCreate" 11000%N)
      start = Normal nullptr st1 /\
    lazilyLoadAndInvoke "cuStreamCreate" 11000%N [] start =
      Thrown (c10_Error (unavailable_message "cuStreamCreate")) st1 /\
    lazilyLoadAndInvoke "cuStreamCreate" 11000%N [7]
      (run [IsDriverAPIAvailable "cuStreamCreate" 11000%N] st1) =
      Thrown (c10_Error (unavailable_message "cuStreamCreate"))
        (run [IsDriverAPIAvailable "cuStreamCreate" 11000%N] st1).
Proof.
  exists (state_of (static_local "cuStreamCreate"
                      (load_entry_point "cuStreamCreate" 11000%N) start)).
  assert (static_local "cuStreamCreate"
            (load_entry_point "cuStreamCreate" 11000%N) start =
          Normal nullptr
            (state_of (static_local "cuStreamCreate"
                         (load_entry_point "cuStreamCreate" 11000%N) start)))
    as Hinit by (vm_compute; reflexivity).
  destruct (null_slot_always_throws "cuStreamCreate" 11000%N [] start _ Hinit)
    as (H1 & H2 & _).
  split; [exact Hinit |]. split; [exact H1 |].
  apply (H2 [IsDriverAPIAvailable "cuStreamCreate" 11000%N] 11000%N [7]).
Defined.

(** C3 as the specification has it fails: the first invocation of a slot
    whose resolution returns null leaves no entry in [loaded_apis]. *)
Lemma failed_slot_resolution_not_stored :
  static_entry_point start !! "cuStreamCreate" = None /\
  loaded_apis start !! "cuStreamCreate" = None /\
  resolved "cuStreamCreate" 11000%N (runtime start) = nullptr /\
  ~ is_Some (loaded_apis
               (state_of (lazilyLoadAndInvoke "cuStreamCreate" 11000%N []
                            start)) !! "cuStreamCreate").
Proof.
  split; [reflexivity |]. split; [reflexivity |]. split; [reflexivity |].
  intros [p Hp]. vm_compute in Hp. discriminate.
Qed.

Lemma first_invocation_stores_non_null_witness :
  let st' := state_of (lazilyLoadAndInvoke "cuGetErrorName" 11000%N [1] start) in
  resolver_calls "cuGetErrorName" (history st') = 1%nat /\
  static_entry_point st' !! "cuGetErrorName" = Some 4110%N /\
  loaded_apis st' = <["cuGetErrorName" := 4110%N]> ∅.
Proof.
  exact (first_invocation_stores_non_null "cuGetErrorName" 11000%N [1] start
           eq_refl eq_refl eq_refl).
Defined.

Lemma isDriverAPIAvailable_spec_witness :
  exists st',
    isDriverAPIAvailable "cuStreamCreate" 11000%N start = Normal false st' /\
    loaded_apis st' !! "cuStreamCreate" = Some nullptr.
Proof.
  destruct (isDriverAPIAvailable_spec "cuStreamCreate" 11000%N start eq_refl)
    as [_ Hnew].
  destruct (Hnew eq_refl) as (st' & _ & _ & _ & Hnull).
  exists st'. apply Hnull. reflexivity.
Defined.

(** C5 as the specification has it fails: a runtime that answers the
    lookup of a symbol it does not have with [cudaSuccess] and a null entry
    point makes the Resolver return null with no warning on record. *)
Lemma silent_failure_without_warning :
  let st' := state_of (@getDriverEntryPoint nat silent_driver
                         "cuStreamCreate" 11000%N
                         (@initial_state nat silent_driver 0%nat)) in
  @getDriverEntryPoint nat silent_driver "cuStreamCreate" 11000%N
    (@initial_state nat silent_driver 0%nat) = Normal nullptr st' /\
  history st' = [EvResolve "cuStreamCreate" 11000%N] /\
  ~ (1 <= warnings (history st'))%nat.
Proof.
  split; [vm_compute; reflexivity |]. split; [vm_compute; reflexivity |].
  vm_compute. lia.
Qed.

Lemma getDriverEntryPoint_soft_failure_witness :
  exists st',
    getDriverEntryPoint "cuStreamCreate" 11000%N start = Normal nullptr st' /\
    history st' =
      [EvResolve "cuStreamCreate" 11000%N;
       EvWarn (load_warning "cuStreamCreate" cudaErrorSymbolNotFound)].
Proof.
  destruct (getDriverEntryPoint_soft_failure "cuStreamCreate" 11000%N start)
    as (_ & Hfail & _).
  apply (Hfail cudaErrorSymbolNotFound 0%N 0%nat); [reflexivity |].
  unfold cudaErrorSymbolNotFound, cudaSuccess. lia.
Defined.

Lemma getDriverVersion_spec_witness :
  exists st',
    getDriverVersion start = Normal (-1) st' /\
    cached_driver_version st' = -1 /\
    version_queries (history (state_of (getDriverVersion st'))) = 2%nat.
Proof.
  destruct (getDriverVersion_spec start) as [_ Hquery].
  assert (cached_driver_version start < 0) as Hneg by (simpl; lia).
  destruct (Hquery Hneg cudaErrorInsufficientDriver 0 1%nat eq_refl)
    as [_ Hfail].
  assert (cudaErrorInsufficientDriver <> cudaSuccess) as Herr
    by (unfold cudaErrorInsufficientDriver, cudaSuccess; lia).
  destruct (Hfail Herr) as (st' & Hret & Hc & _ & Hq & Hagain).
  exists st'. split; [exact Hret |]. split; [exact Hc |].
  rewrite Hagain, Hq. reflexivity.
Defined.

Lemma loaded_apis_one_pointer_per_name_witness :
  loaded_apis (run [IsDriverAPIAvailable "cuGetErrorName" 11000%N] start)
    !! "cuGetErrorName" = Some 4110%N /\
  loaded_apis (run [CallSlot "cuGetErrorName" [1]]
                 (run [IsDriverAPIAvailable "cuGetErrorName" 11000%N] start))
    !! "cuGetErrorName" = Some 4110%N /\
  4110%N = 4110%N.
Proof.
  assert (loaded_apis (run [IsDriverAPIAvailable "cuGetErrorName" 11000%N] start)
            !! "cuGetErrorName" = Some 4110%N) as H1
    by (vm_compute; reflexivity).
  assert (loaded_apis
            (run [CallSlot "cuGetErrorName" [1]]
               (run [IsDriverAPIAvailable "cuGetErrorName" 11000%N] start))
            !! "cuGetErrorName" = Some 4110%N) as H2
    by (vm_compute; reflexivity).
  split; [exact H1 |]. split; [exact H2 |].
  apply (loaded_apis_one_pointer_per_name start
           [IsDriverAPIAvailable "cuGetErrorName" 11000%N]
           [CallSlot "cuGetErrorName" [1]] "cuGetErrorName" 4110%N 4110%N
           H1 H2); unfold nullptr; lia.
Defined.

(** C8 on the stub: after a call that resolved [cuGetErrorName] the loader
    holds the native address, and the public pointer is the loader still. *)
Lemma slot_pointer_never_replaced_witness :
  let st := run [CallSlot "cuGetErrorName" [1]; CallSlot "cuGetErrorName" [2]]
              start in
  static_entry_point st !! "cuGetErrorName" = Some 4110%N /\
  slot st !! "cuGetErrorName" =
    Some (LazilyLoadAndInvoke "cuGetErrorName" 11000%N) /\
  exists version,
    LazilyLoadAndInvoke "cuGetErrorName" 11000%N =
      LazilyLoadAndInvoke "cuGetErrorName" version /\
    In ("cuGetErrorName", version) ALL_DRIVER_API_WRAPPER.
Proof.
  intros st.
  assert (slot st !! "cuGetErrorName" =
          Some (LazilyLoadAndInvoke "cuGetErrorName" 11000%N)) as Hslot
    by (vm_compute; reflexivity).
  split; [vm_compute; reflexivity |]. split; [exact Hslot |].
  exact (slot_pointer_never_replaced 0%nat
           [CallSlot "cuGetErrorName" [1]; CallSlot "cuGetErrorName" [2]]
           "cuGetErrorName" _ Hslot).
Defined.

(** C9 on the stub: the second version query succeeds and stores 12040
    with the mutex free. *)
Lemma getDriverVersion_writes_unlocked_witness :
  let st := run [GetDriverVersion] start in
  driver_api_mutex st = false /\
  cached_driver_version (state_of (getDriverVersion st)) = 12040 /\
  history (state_of (getDriverVersion st)) =
    history st ++ [EvQueryVersion; EvStoreVersion 12040] /\
  writes_under_lock false (history (state_of (getDriverVersion st))) = false.
Proof.
  intros st.
  assert (driver_api_mutex st = false) as Hm by reflexivity.
  assert (cached_driver_version st < 0) as Hc by (vm_compute; reflexivity).
  assert (cudaDriverGetVersion (runtime st) = ((cudaSuccess, 12040), 2%nat))
    as Hq by (vm_compute; reflexivity).
  destruct (getDriverVersion_writes_unlocked st 12040 2%nat Hm Hc Hq)
    as (H1 & H2 & _).
  split; [exact Hm |]. split; [exact H1 |]. split; [exact H2 |].
  vm_compute. reflexivity.
Defined.

Lemma initializeDriverAPI_self_deadlock_witness :
  (exists st',
     initializeDriverAPI start = Blocked st' /\
     driver_api_mutex st' = true /\
     warnings (history st') = 0%nat) /\
  (let st := @run nat failing_init_driver [CallSlot "cuInit" [0]]
               (@initial_state nat failing_init_driver 0%nat) in
   exists st',
     @initializeDriverAPI nat failing_init_driver st = Blocked st' /\
     driver_api_mutex st' = true /\
     warnings (history st') = 0%nat).
Proof.
  split.
  - destruct (initializeDriverAPI_self_deadlock start eq_refl) as [Hfirst _].
    exact (Hfirst 11000%N eq_refl eq_refl).
  - intros st.
    destruct (@initializeDriverAPI_self_deadlock nat failing_init_driver st
                eq_refl) as [_ Hsecond].
    apply (Hsecond 11000%N 11000%N 4102%N
             {| status := CUDA_ERROR_NO_DEVICE; out_string := None |} 0%nat);
      try reflexivity.
    + unfold nullptr. lia.
    + unfold CUDA_ERROR_NO_DEVICE, CUDA_SUCCESS. simpl. lia.
Defined.

(** ** The further properties on the stub runtime *)

Lemma resolved_slot_forwards_witness :
  let st := run [CallSlot "cuGetErrorName" [1]] start in
  lazilyLoadAndInvoke "cuGetErrorName" 11000%N [2] st =
  Normal {| status := CUDA_SUCCESS; out_string := None |}
    (record_event (EvInvoke 4110%N [2]) (set_runtime 0%nat st)).
Proof.
  intros st.
  apply (resolved_slot_forwards "cuGetErrorName" 11000%N [2] st 4110%N).
  - vm_compute. reflexivity.
  - unfold nullptr. lia.
  - reflexivity.
Defined.

Lemma slot_adopts_cached_pointer_witness :
  let st := run [IsDriverAPIAvailable "cuGetErrorName" 11000%N] start in
  let st' := state_of (lazilyLoadAndInvoke "cuGetErrorName" 11000%N [1] st) in
  static_entry_point st' !! "cuGetErrorName" = Some 4110%N /\
  resolver_calls "cuGetErrorName" (history st') =
    resolver_calls "cuGetErrorName" (history st).
Proof.
  intros st st'.
  assert (static_entry_point st !! "cuGetErrorName" = None) as Hs
    by (vm_compute; reflexivity).
  assert (driver_api_mutex st = false) as Hm by (vm_compute; reflexivity).
  assert (loaded_apis st !! "cuGetErrorName" = Some 4110%N) as Ht
    by (vm_compute; reflexivity).
  destruct (slot_adopts_cached_pointer "cuGetErrorName" 11000%N [1] st 4110%N
              Hs Hm Ht) as (H1 & _ & H3 & _).
  split; [exact H1 | exact (H3 "cuGetErrorName")].
Defined.

Lemma first_use_trace_witness :
  history (state_of (lazilyLoadAndInvoke "cuGetErrorName" 11000%N [1] start)) =
    [EvLock; EvResolve "cuGetErrorName" 11000%N;
     EvStoreApi "cuGetErrorName" 4110%N; EvUnlock; EvInvoke 4110%N [1]] /\
  driver_api_mutex
    (state_of (lazilyLoadAndInvoke "cuGetErrorName" 11000%N [1] start)) = false.
Proof.
  exact (first_use_trace "cuGetErrorName" 11000%N [1] start
           eq_refl eq_refl eq_refl).
Defined.

Lemma other_symbols_untouched_witness :
  let st := run [IsDriverAPIAvailable "cuInit" 11000%N] start in
  loaded_apis
    (state_of (lazilyLoadAndInvoke "cuGetErrorName" 11000%N [1] st))
    !! "cuInit" = loaded_apis st !! "cuInit" /\
  resolver_calls "cuInit"
    (history (state_of (isDriverAPIAvailable "cuGetErrorName" 11000%N st))) =
  resolver_calls "cuInit" (history st).
Proof.
  intros st.
  assert ("cuInit" <> "cuGetErrorName") as Hne by discriminate.
  destruct (other_symbols_untouched "cuInit" "cuGetErrorName" 11000%N [1]
              11000%N st Hne) as ((H1 & _) & (_ & _ & H2)).
  split; [exact H1 | exact H2].
Defined.

Lemma held_mutex_freezes_resolution_witness :
  let st := run [InitializeDriverAPI] start in
  let ops := [IsDriverAPIAvailable "cuInit" 11000%N; CallSlot "cuInit" [0]] in
  driver_api_mutex st = true /\
  driver_api_mutex (run ops st) = true /\
  loaded_apis (run ops st) = loaded_apis st.
Proof.
  intros st ops.
  assert (driver_api_mutex st = true) as Hm by (vm_compute; reflexivity).
  destruct (held_mutex_freezes_resolution st ops Hm) as (H1 & H2 & _).
  split; [exact Hm |]. split; [exact H1 | exact H2].
Defined.

Lemma only_initialize_keeps_mutex_witness :
  driver_api_mutex start = false /\
  driver_api_mutex (step InitializeDriverAPI start) = true /\
  exists st', initializeDriverAPI start = Blocked st'.
Proof.
  assert (driver_api_mutex (step InitializeDriverAPI start) = true) as Hheld
    by (vm_compute; reflexivity).
  destruct (only_initialize_keeps_mutex InitializeDriverAPI start eq_refl Hheld)
    as [_ Hblocked].
  split; [reflexivity |]. split; [exact Hheld | exact Hblocked].
Defined.

Lemma initializeDriverAPI_success_witness :
  let st := run [CallSlot "cuInit" [0]] start in
  initializeDriverAPI st =
  Normal tt
    (release (record_event (EvInvoke 4102%N [0])
                (set_runtime 0%nat (acquire st)))).
Proof.
  intros st.
  apply (initializeDriverAPI_success st 11000%N 4102%N
           {| status := CUDA_SUCCESS; out_string := None |} 0%nat);
    try (vm_compute; reflexivity).
  unfold nullptr. lia.
Defined.

Lemma initializeDriverAPI_swallows_unavailable_witness :
  let st := @run nat no_cuInit_driver [CallSlot "cuInit" [0]]
              (@initial_state nat no_cuInit_driver 0%nat) in
  static_entry_point st !! "cuInit" = Some nullptr /\
  @initializeDriverAPI nat no_cuInit_driver st =
  Normal tt
    (release (record_event
                (EvWarn "Exception during CUDA driver initialization")
                (acquire st))).
Proof.
  intros st.
  assert (static_entry_point st !! "cuInit" = Some nullptr) as Hs
    by (vm_compute; reflexivity).
  split; [exact Hs |].
  apply (@initializeDriverAPI_swallows_unavailable nat no_cuInit_driver st
           11000%N); [| | exact Hs]; vm_compute; reflexivity.
Defined.

Lemma initializeDriverAPI_reports_error_witness :
  let st := @run nat failing_init_driver
              [CallSlot "cuInit" [0]; CallSlot "cuGetErrorString" [100]]
              (@initial_state nat failing_init_driver 0%nat) in
  exists st',
    @initializeDriverAPI nat failing_init_driver st = Normal tt st' /\
    warnings (history st') = 1%nat.
Proof.
  intros st. eexists. split.
  - apply (@initializeDriverAPI_reports_error nat failing_init_driver st
             11000%N 11000%N 4102%N 4112%N
             {| status := CUDA_ERROR_NO_DEVICE; out_string := None |} 0%nat
             {| status := CUDA_ERROR_NO_DEVICE; out_string := None |} 0%nat);
      try (vm_compute; reflexivity).
    + unfold nullptr. lia.
    + unfold CUDA_ERROR_NO_DEVICE, CUDA_SUCCESS. simpl. lia.
    + unfold nullptr. lia.
  - vm_compute. reflexivity.
Defined.

Lemma initializeDriverAPI_needs_prior_cuInit_witness :
  initializeDriverAPI start = Blocked (acquire start) /\
  exists st', initializeDriverAPI (run [GetDriverVersion] start) = Blocked st'.
Proof.
  assert (11000 <= CUDA_VERSION)%N as Hv by (vm_compute; discriminate).
  destruct (initializeDriverAPI_needs_prior_cuInit 0%nat [GetDriverVersion] Hv)
    as [Hany _].
  destruct (initializeDriverAPI_needs_prior_cuInit 0%nat [] Hv)
    as [_ Hstart].
  split; [exact Hstart |]. apply Hany. vm_compute. reflexivity.
Defined.

Lemma declared_symbols_have_slots_witness :
  slot (run [CallSlot "cuTensorMapEncodeTiled" []] start)
    !! "cuTensorMapEncodeTiled" =
  Some (LazilyLoadAndInvoke "cuTensorMapEncodeTiled" 12000%N).
Proof.
  apply (declared_symbols_have_slots 0%nat
           [CallSlot "cuTensorMapEncodeTiled" []]
           "cuTensorMapEncodeTiled" 12000%N).
  vm_compute. tauto.
Defined.

Lemma declared_versions_bounded_witness :
  (12000 <= CUDA_VERSION)%N /\ length ALL_DRIVER_API_WRAPPER = 29%nat.
Proof.
  destruct declared_versions_bounded as [Hall Hlen].
  split.
  - apply (Hall "cuStreamWaitValue32" 12000%N). vm_compute. tauto.
  - rewrite Hlen. reflexivity.
Defined.

Lemma driver_version_is_final_witness :
  let st := state_of (getDriverVersion (state_of (getDriverVersion start))) in
  let ops := [CallSlot "cuInit" [0]; IsDriverAPIAvailable "cuMemAlloc" 11000%N;
              InitializeDriverAPI] in
  cached_driver_version st = 12040 /\
  getDriverVersion (run ops st) = Normal 12040 (run ops st) /\
  version_queries (history (run ops st)) = 2%nat.
Proof.
  intros st ops.
  assert (0 <= cached_driver_version st) as Hc by (vm_compute; discriminate).
  assert (Forall (fun op => op <> GetDriverVersion) ops) as Hops
    by (repeat constructor; discriminate).
  destruct (driver_version_is_final st ops Hc Hops) as (_ & H2 & H3).
  split; [vm_compute; reflexivity |]. split; [exact H3 | exact H2].
Defined.

Lemma negative_version_not_memoized_witness :
  exists st',
    @getDriverVersion nat negative_version_driver
      (@initial_state nat negative_version_driver 0%nat) = Normal (-7) st' /\
    cached_driver_version st' = -7 /\
    version_queries
      (history (state_of (@getDriverVersion nat negative_version_driver st'))) =
    Datatypes.S (version_queries (history st')).
Proof.
  apply (@negative_version_not_memoized nat negative_version_driver
           (@initial_state nat negative_version_driver 0%nat) (-7) 1%nat).
  - simpl. lia.
  - reflexivity.
  - lia.
Defined.

Lemma version_ignored_below_12050_witness :
  resolved "cuInit" 11000%N (runtime start) =
  resolved "cuInit" 13000%N (runtime start).
Proof.
  assert (CUDA_VERSION < 12050)%N as Hv by (vm_compute; reflexivity).
  exact (proj1 (version_ignored_below_12050 "cuInit" 11000%N 13000%N start Hv)).
Defined.

Lemma probe_answer_is_final_witness :
  let st1 := state_of (isDriverAPIAvailable "cuStreamCreate" 11000%N start) in
  let ops := [CallSlot "cuStreamCreate" []; GetDriverVersion] in
  exists st2,
    isDriverAPIAvailable "cuStreamCreate" 12000%N (run ops st1) =
    Normal false st2.
Proof.
  intros st1 ops.
  assert (isDriverAPIAvailable "cuStreamCreate" 11000%N start =
          Normal false st1) as Hprobe by (vm_compute; reflexivity).
  assert (driver_api_mutex (run ops st1) = false) as Hm
    by (vm_compute; reflexivity).
  destruct (probe_answer_is_final "cuStreamCreate" 11000%N 12000%N start
              false st1 ops Hprobe Hm) as (st2 & H2 & _).
  exists st2. exact H2.
Defined.

Lemma slot_pointer_is_cached_witness :
  loaded_apis (run [CallSlot "cuGetErrorName" [1]] start) !! "cuGetErrorName" =
  Some 4110%N.
Proof.
  apply (slot_pointer_is_cached 0%nat [CallSlot "cuGetErrorName" [1]]
           "cuGetErrorName" 4110%N).
  - vm_compute. reflexivity.
  - unfold nullptr. lia.
Defined.


Lemma getDriverEntryPoint_success_passthrough_witness :
  exists st',
    @isDriverAPIAvailable nat silent_driver "cuStreamCreate" 11000%N
      (@initial_state nat silent_driver 0%nat) = Normal false st' /\
    loaded_apis st' !! "cuStreamCreate" = Some nullptr /\
    warnings (history st') = 0%nat.
Proof.
  destruct (@getDriverEntryPoint_success_passthrough nat silent_driver
              "cuStreamCreate" 11000%N (@initial_state nat silent_driver 0%nat)
              0%N 0%nat eq_refl) as [_ Hprobe].
  exact (Hprobe eq_refl eq_refl eq_refl).
Defined.

Lemma version_moved_by_getDriverVersion_only_witness :
  cached_driver_version (step (CallSlot "cuInit" [0]) start) =
  cached_driver_version start.
Proof.
  assert (CallSlot "cuInit" [0] <> GetDriverVersion) as Hop by discriminate.
  exact (proj1 (version_moved_by_getDriverVersion_only
                  (CallSlot "cuInit" [0]) start Hop)).
Defined.
